(** * GVP-Transformer inverse folding: the sampling procedures

    A shallow embedding of [esm/inverse_folding/gvp_transformer.py]
    (class [GVPTransformerModel], methods [sample], [sample_batch] and
    [sample_batch2]) and the properties of its autoregressive sampling
    loop.

    The Python methods are stateful: they call the structure encoder and
    the decoder (which mutates the incremental-state dict it is handed),
    draw from torch's global random generator and can raise.  They are
    modelled in a state-and-exception monad over a [State] that holds the
    generator, the store of incremental-state dicts (by address, so that
    aliasing is visible) and the chronological trace of collaborator
    invocations.

    Not modelled: standard output.  The arguments [flag1] .. [flag4] only
    select what is printed and are left out; the unconditional [print] of
    [sample_batch2] (line 320) is kept for the multinomial draw it makes.
    Moving a tensor to a device ([.to(device)]) is the identity on values;
    a device argument matters through its truth value only.  [num_samples]
    is a natural number. *)

From Stdlib Require Import ZArith QArith Lia.
From stdpp Require Import base option list gmap strings.

Close Scope Q_scope.
Open Scope string_scope.
Open Scope nat_scope.

(** ** Exceptions and results *)

(** The exception classes the sampling code can raise by itself, and
    [External] for whatever a collaborator raises. *)
Inductive exn :=
  | IndexError          (* subscript out of range *)
  | KeyError            (* LookupError: unknown symbol or missing dict key *)
  | UnboundLocalError   (* NameError: local name read before assignment *)
  | RuntimeError        (* torch: shape mismatch, invalid distribution, ... *)
  | TypeError
  | External (what : string).

Inductive Result (A : Type) :=
  | Ok (a : A)
  | Err (e : exn).
Arguments Ok {A} a.
Arguments Err {A} e.

Definition rbind {A B} (m : Result A) (k : A → Result B) : Result B :=
  match m with
  | Ok a => k a
  | Err e => Err e
  end.

Notation "'let?' x := m 'in' k" := (rbind m (fun x => k))
  (at level 10, x name, m at level 100, k at level 200).
Notation "'let?' ' p := m 'in' k" := (rbind m (fun x => match x with p => k end))
  (at level 10, p pattern, m at level 100, k at level 200).

Fixpoint rmapM {A B} (f : A → Result B) (l : list A) : Result (list B) :=
  match l with
  | [] => Ok []
  | x :: l' => let? y := f x in let? ys := rmapM f l' in Ok (y :: ys)
  end.

(** ** The vocabulary *)

(** Modelled from the spec: the Vocabulary ([esm.data.Alphabet], reached as
    [self.decoder.dictionary]) is not under src/.  Per the spec it is a
    bidirectional mapping between symbols and the indices [0, V), whose
    [index_of] fails with a LookupError on an unknown symbol. *)
Record Vocabulary := { all_toks : list string }.

(** Modelled from the spec: [index_of(symbol) -> Index], failing with a
    LookupError on an unknown symbol. *)
Definition get_idx (d : Vocabulary) (c : string) : Result Z :=
  match list_find (λ t, t = c) (all_toks d) with
  | Some (k, _) => Ok (Z.of_nat k)
  | None => Err KeyError
  end.

(** Modelled from the spec: [symbol_of(index) -> Symbol] on the indices
    [0, V). *)
Definition get_tok (d : Vocabulary) (a : Z) : Result string :=
  if bool_decide (0 ≤ a)%Z then
    match all_toks d !! Z.to_nat a with
    | Some t => Ok t
    | None => Err IndexError
    end
  else Err IndexError.

(** ** Token buffers: 2-D integer tensors *)

(** [sampled_tokens] is an integer tensor of shape (rows, 1+L), kept as
    the list of its rows, [list (list Z)].  Its entries are vocabulary
    indices, far from the bounds of its 64-bit element type. *)

(** [t[r, c]] *)
Definition get2 (t : list (list Z)) (r c : nat) : Result Z :=
  match t !! r with
  | Some row => match row !! c with Some v => Ok v | None => Err IndexError end
  | None => Err IndexError
  end.

(** [t[r, c] = v] *)
Definition set2 (t : list (list Z)) (r c : nat) (v : Z) : Result (list (list Z)) :=
  match t !! r with
  | Some row =>
      if bool_decide (c < length row) then Ok (<[r := <[c := v]> row]> t)
      else Err IndexError
  | None => Err IndexError
  end.

(** [t[:, :i]] *)
Definition prefix_cols (i : nat) (t : list (list Z)) : list (list Z) :=
  take i <$> t.

(** [t[r, 1:]] *)
Definition row_tail (t : list (list Z)) (r : nat) : Result (list Z) :=
  match t !! r with
  | Some row => Ok (drop 1 row)
  | None => Err IndexError
  end.

(** Broadcasting a 1-D source of shape (m,) to a target of shape (n,):
    allowed when m = n or m = 1. *)
Definition broadcast (src : list Z) (n : nat) : Result (list Z) :=
  if bool_decide (length src = n) then Ok src
  else match src with
       | [v] => Ok (replicate n v)
       | _ => Err RuntimeError
       end.

(** Writing one value per row into column [i]. *)
Fixpoint write_col (t : list (list Z)) (i : nat) (vals : list Z) : Result (list (list Z)) :=
  match t, vals with
  | row :: t', v :: vals' =>
      if bool_decide (i < length row) then
        let? t'' := write_col t' i vals' in Ok (<[i := v]> row :: t'')
      else Err IndexError
  | _, _ => Ok t
  end.

(** [t[:, i] = src] *)
Definition set_col (t : list (list Z)) (i : nat) (src : list Z) : Result (list (list Z)) :=
  let? vals := broadcast src (length t) in write_col t i vals.

(** [t[j:j+1, i]]: a 1-D tensor with one element, or none when [j] is
    past the last row (slices clamp). *)
Definition cell_slice (t : list (list Z)) (j i : nat) : Result (list Z) :=
  match t !! j with
  | Some row => match row !! i with Some v => Ok [v] | None => Err IndexError end
  | None => Ok []
  end.

(** The truth value of [cell == mask_idx] in an [if]: defined for a
    one-element tensor only. *)
Definition cell_is (cell : list Z) (mask_idx : Z) : Result bool :=
  match cell with
  | [v] => Ok (bool_decide (v = mask_idx))
  | _ => Err RuntimeError
  end.

(** [t[j:j+1, i] = src] *)
Definition set_cell (t : list (list Z)) (j i : nat) (src : list Z) : Result (list (list Z)) :=
  match t !! j with
  | Some row =>
      let? vals := broadcast src 1 in
      match vals with
      | v :: _ => set2 t j i v
      | [] => Err RuntimeError
      end
  | None => let? _ := broadcast src 0 in Ok t
  end.

(** ** Initialisation of the token buffer (lines 112-117, 173-178, 252-257) *)

(** [for i, c in enumerate(partial_seq): sampled_tokens[0, i+1] = get_idx(c)];
    the right-hand side is evaluated before the store. *)
Fixpoint write_partial (d : Vocabulary) (p : list string) (i : nat)
    (t : list (list Z)) : Result (list (list Z)) :=
  match p with
  | [] => Ok t
  | c :: p' =>
      let? v := get_idx d c in
      let? t' := set2 t 0 (i + 1) v in
      write_partial d p' (S i) t'
  end.

Definition init_tokens (d : Vocabulary) (L : nat) (partial_seq : option (list string))
    : Result (Z * list (list Z)) :=
  let? mask_idx := get_idx d "<mask>" in
  let sampled_tokens := [replicate (1 + L) mask_idx] in
  let? cath := get_idx d "<cath>" in
  let? sampled_tokens := set2 sampled_tokens 0 0 cath in
  let? sampled_tokens :=
    match partial_seq with
    | Some p => write_partial d p 0 sampled_tokens
    | None => Ok sampled_tokens
    end in
  Ok (mask_idx, sampled_tokens).

(** ** Float tensors

    The decoder returns a 3-D float tensor.  A tensor is its shape and its
    element accessor, so that indexing and transposition are exact also
    for degenerate shapes; the scalars themselves stay abstract. *)

Record tensor2 (S : Type) := Tensor2 {
  t2_rows : nat;
  t2_cols : nat;
  t2_el : nat → nat → S }.
Arguments Tensor2 {S} _ _ _.
Arguments t2_rows {S} _.
Arguments t2_cols {S} _.
Arguments t2_el {S} _ _ _.

Record tensor3 (S : Type) := Tensor3 {
  t3_d0 : nat;
  t3_d1 : nat;
  t3_d2 : nat;
  t3_el : nat → nat → nat → S }.
Arguments Tensor3 {S} _ _ _ _.
Arguments t3_d0 {S} _.
Arguments t3_d1 {S} _.
Arguments t3_d2 {S} _.
Arguments t3_el {S} _ _ _ _.

(** [x[0]] *)
Definition t3_index0 {S} (x : tensor3 S) : Result (tensor2 S) :=
  if bool_decide (0 < t3_d0 x) then Ok (Tensor2 (t3_d1 x) (t3_d2 x) (t3_el x 0))
  else Err IndexError.

(** [x.transpose(0, 1)] *)
Definition t2_transpose {S} (x : tensor2 S) : tensor2 S :=
  Tensor2 (t2_cols x) (t2_rows x) (λ a b, t2_el x b a).

Definition t3_transpose01 {S} (x : tensor3 S) : tensor3 S :=
  Tensor3 (t3_d1 x) (t3_d0 x) (t3_d2 x) (λ a b c, t3_el x b a c).

Definition t2_map {S} (f : S → S) (x : tensor2 S) : tensor2 S :=
  Tensor2 (t2_rows x) (t2_cols x) (λ a b, f (t2_el x a b)).

Definition t3_map {S} (f : S → S) (x : tensor3 S) : tensor3 S :=
  Tensor3 (t3_d0 x) (t3_d1 x) (t3_d2 x) (λ a b c, f (t3_el x a b c)).

(** A softmaxed tensor is kept as its vectors along the last axis: these
    are what [torch.multinomial] consumes, one distribution per row. *)
Record probs3 (S : Type) := Probs3 {
  p3_d0 : nat;
  p3_d1 : nat;
  p3_vec : nat → nat → list S }.
Arguments Probs3 {S} _ _ _.
Arguments p3_d0 {S} _.
Arguments p3_d1 {S} _.
Arguments p3_vec {S} _ _ _.

(** [F.softmax(x, dim=-1)] on a 2-D tensor: the list of its softmaxed rows. *)
Definition t2_softmax {S} (softmax_vec : list S → list S) (x : tensor2 S) : list (list S) :=
  (λ a, softmax_vec (t2_el x a <$> seq 0 (t2_cols x))) <$> seq 0 (t2_rows x).

(** [F.softmax(x, dim=-1)] on a 3-D tensor. *)
Definition t3_softmax {S} (softmax_vec : list S → list S) (x : tensor3 S) : probs3 S :=
  Probs3 (t3_d0 x) (t3_d1 x) (λ a b, softmax_vec (t3_el x a b <$> seq 0 (t3_d2 x))).

(** [probs[:, j, :]] *)
Definition p3_slice1 {S} (p : probs3 S) (j : nat) : Result (list (list S)) :=
  if bool_decide (j < p3_d1 p) then Ok ((λ a, p3_vec p a j) <$> seq 0 (p3_d0 p))
  else Err IndexError.

(** ** Collaborators

    Everything the three methods reach outside the file: torch's numeric
    primitives, the batch converter, the structure encoder and the
    decoder.  Each is a parameter; a collaborator that can raise returns
    a [Result]. *)

(** The values of the encoder's output dict: lists of tensors (as under
    ['encoder_out'] and ['encoder_padding_mask']) or anything else. *)
Inductive EncVal (Tn Opaque : Type) :=
  | EList (l : list Tn)
  | EOther (o : Opaque).
Arguments EList {Tn Opaque} l.
Arguments EOther {Tn Opaque} o.

Class Env := {
  Coord : Type;        (* the coordinates of one residue *)
  Conf : Type;         (* a confidence list *)
  Device : Type;       (* a (truthy) device argument *)
  Tn : Type;           (* tensors only collaborators look into *)
  Opaque : Type;       (* other values of the encoder's output dict *)
  CVal : Type;         (* values of the incremental-state dict *)
  Scalar : Type;       (* float scalars *)
  Rng : Type;          (* state of torch's global generator *)
  (* [x / temperature] on one element of a float tensor (IEEE: total) *)
  fdiv : Scalar → Q → Scalar;
  (* softmax of one vector *)
  softmax_vec : list Scalar → list Scalar;
  (* one multinomial draw from one distribution; raises on an invalid one *)
  draw : list Scalar → Rng → Result Z * Rng;
  (* [t[k:k+1, :]] and [t[:, k:k+1, :]] *)
  slice_dim0 : Tn → nat → Result Tn;
  slice_dim1 : Tn → nat → Result Tn;
  (* [v[k:k+1]] on any other value; [None] when it raises *)
  slice_opaque : Opaque → nat → option Opaque;
  (* [CoordBatchConverter(dictionary)(batch, device=device)], keeping the
     coordinates, confidence and padding mask of its result *)
  batch_converter :
    Vocabulary → list (list Coord * option Conf) → option Device → Result (Tn * Tn * Tn);
}.

Abbreviation Cache := (gmap string CVal).
Abbreviation EncOut := (gmap string (EncVal Tn Opaque)).

(** ** State, trace and the monad *)

(** One entry per collaborator invocation, in the order they happen. *)
Inductive Event `{Env} :=
  | EvEncoder (batch_coords padding_mask confidence : Tn)
  | EvDecoder (addr : nat) (prev_output_tokens : list (list Z))
      (encoder_out : EncOut) (cache_in cache_out : Cache)
  | EvMultinomial (probs : list (list Scalar)).

Record State `{Env} := mkState {
  rng : Rng;               (* torch's global generator *)
  store : list Cache;      (* the incremental-state dicts, by address *)
  trace : list Event }.

Definition M `{Env} (A : Type) : Type := State → Result A * State.

Definition ret `{Env} {A} (a : A) : M A := λ st, (Ok a, st).

Definition bind `{Env} {A B} (m : M A) (k : A → M B) : M B :=
  λ st, match m st with
        | (Ok a, st') => k a st'
        | (Err e, st') => (Err e, st')
        end.

Definition lift `{Env} {A} (r : Result A) : M A := λ st, (r, st).

Notation "'let*' x := m 'in' k" := (bind m (fun x => k))
  (at level 10, x name, m at level 100, k at level 200).
Notation "'let*' ' p := m 'in' k" := (bind m (fun x => match x with p => k end))
  (at level 10, p pattern, m at level 100, k at level 200).

(** [for i in l: x = body(i, x)] *)
Fixpoint for_each `{Env} {X} (l : list nat) (body : nat → X → M X) (x : X) : M X :=
  match l with
  | [] => ret x
  | i :: l' => let* x' := body i x in for_each l' body x'
  end.

(** The model object: [self.decoder.dictionary], [self.encoder] and
    [self.decoder].  The decoder receives the dict's content and returns
    the content it leaves behind. *)
Record Model `{Env} := {
  dictionary : Vocabulary;
  encoder : Tn → Tn → Tn → Result EncOut;
  decoder : list (list Z) → EncOut → Cache → Result (tensor3 Scalar * Cache) }.

Record Args `{Env} := {
  coords : list Coord;
  num_samples : nat;
  partial_seq : option (list string);
  temperature : Q;
  confidence : option Conf;
  device : option Device }.

Section Sampling.
Context `{Env}.

(** [dict()]: a fresh, empty dict at a new address. *)
Definition new_dict : M nat :=
  λ st, (Ok (length (store st)), mkState _ (rng st) (store st ++ [∅])%list (trace st)).

(** [self.encoder(batch_coords, padding_mask, confidence)] *)
Definition call_encoder (self : Model) (batch_coords padding_mask conf : Tn) : M EncOut :=
  λ st, (encoder self batch_coords padding_mask conf,
         mkState _ (rng st) (store st)
           (trace st ++ [EvEncoder batch_coords padding_mask conf])%list).

(** [self.decoder(prev, encoder_out, incremental_state=incremental_state)]:
    the dict at [addr] is read and updated in place. *)
Definition call_decoder (self : Model) (prev : list (list Z)) (encoder_out : EncOut)
    (addr : nat) : M (tensor3 Scalar) :=
  λ st, match store st !! addr with
        | Some c =>
            match decoder self prev encoder_out c with
            | Ok (logits, c') =>
                (Ok logits,
                 mkState _ (rng st) (<[addr := c']> (store st))
                   (trace st ++ [EvDecoder addr prev encoder_out c c'])%list)
            | Err e =>
                (Err e,
                 mkState _ (rng st) (store st)
                   (trace st ++ [EvDecoder addr prev encoder_out c c])%list)
            end
        | None => (Err TypeError, st)
        end.

Fixpoint draw_rows (rows : list (list Scalar)) (g : Rng) : Result (list Z) * Rng :=
  match rows with
  | [] => (Ok [], g)
  | r :: rows' =>
      match draw r g with
      | (Ok k, g') =>
          match draw_rows rows' g' with
          | (Ok ks, g'') => (Ok (k :: ks), g'')
          | (Err e, g'') => (Err e, g'')
          end
      | (Err e, g') => (Err e, g')
      end
  end.

(** [torch.multinomial(probs, 1).squeeze(-1)]: one draw per row. *)
Definition multinomial (probs : list (list Scalar)) : M (list Z) :=
  λ st, let '(r, g) := draw_rows probs (rng st) in
        (r, mkState _ g (store st) (trace st ++ [EvMultinomial probs])%list).

(** *** Slicing the encoder output (lines 199-208 and 277-285) *)

(** [all_encoder_out[key][0]]; the encoder keeps a list of tensors under
    the two keys read this way. *)
Definition enc_first (all_encoder_out : EncOut) (key : string) : Result Tn :=
  match all_encoder_out !! key with
  | Some (EList (x :: _)) => Ok x
  | Some (EList []) => Err IndexError
  | Some (EOther _) => Err TypeError
  | None => Err KeyError
  end.

(** [v[k:k+1]], [None] when it raises. *)
Definition slice_val (v : EncVal Tn Opaque) (k : nat) : option (EncVal Tn Opaque) :=
  match v with
  | EList l => Some (EList (take 1 (drop k l)))
  | EOther o => EOther <$> slice_opaque o k
  end.

Definition slice_encoder_out (all_encoder_out : EncOut) (sample_idx : nat) : Result EncOut :=
  let? eo := enc_first all_encoder_out "encoder_out" in
  let? eo := slice_dim1 eo sample_idx in
  let? pm := enc_first all_encoder_out "encoder_padding_mask" in
  let? pm := slice_dim0 pm sample_idx in
  Ok (<["encoder_padding_mask" := EList [pm]]>
        (<["encoder_out" := EList [eo]]>
           ((λ v, default v (slice_val v sample_idx)) <$> all_encoder_out))).

Definition copy_encoder_out (all_encoder_out : EncOut) : Result EncOut :=
  let? eo := enc_first all_encoder_out "encoder_out" in
  let? pm := enc_first all_encoder_out "encoder_padding_mask" in
  Ok (<["encoder_padding_mask" := EList [pm]]>
        (<["encoder_out" := EList [eo]]> all_encoder_out)).

(** *** Conversion back to symbols *)

(** [[get_tok(a) for a in sampled_tokens[r, 1:]]] *)
Definition decode_symbols (d : Vocabulary) (t : list (list Z)) (r : nat)
    : Result (list string) :=
  let? sampled_seq := row_tail t r in rmapM (get_tok d) sampled_seq.

(** [''.join(symbols)] *)
Definition join (syms : list string) : string := String.concat "" syms.

(** *** One decoding step of [sample] and [sample_batch] (lines 137-146,
    213-222) *)
Definition sample_step (self : Model) (mask_idx : Z) (encoder_out : EncOut)
    (incremental_state : nat) (temp : Q) (i : nat) (sampled_tokens : list (list Z))
    : M (list (list Z)) :=
  let* logits := call_decoder self (prefix_cols i sampled_tokens) encoder_out
                   incremental_state in
  let* logits := lift (t3_index0 logits) in
  let logits := t2_transpose logits in
  let logits := t2_map (λ x, fdiv x temp) logits in
  let probs := t2_softmax softmax_vec logits in
  let* cur := lift (get2 sampled_tokens 0 i) in
  if bool_decide (cur = mask_idx) then
    let* drawn := multinomial probs in
    lift (set_col sampled_tokens i drawn)
  else ret sampled_tokens.

(** *** [sample] (lines 88-150) *)
Definition sample (self : Model) (a : Args) : M string :=
  let L := length (coords a) in
  let* '(batch_coords, conf, padding_mask) :=
    lift (batch_converter (dictionary self) [(coords a, confidence a)] (device a)) in
  let* '(mask_idx, sampled_tokens) :=
    lift (init_tokens (dictionary self) L (partial_seq a)) in
  let* incremental_state := new_dict in
  let* encoder_out := call_encoder self batch_coords padding_mask conf in
  let* sampled_tokens :=
    for_each (seq 1 L)
      (sample_step self mask_idx encoder_out incremental_state (temperature a))
      sampled_tokens in
  let* syms := lift (decode_symbols (dictionary self) sampled_tokens 0) in
  ret (join syms).

(** *** [sample_batch] (lines 152-228) *)

(** The body of the loop over [sample_idx]; [all_sampled_tokens] is bound
    only when the [if device:] branch ran. *)
Definition sample_batch_body (self : Model) (mask_idx : Z) (all_encoder_out : EncOut)
    (incremental_state : nat) (temp : Q) (L : nat)
    (all_sampled_tokens : option (list (list (list Z))))
    (sample_idx : nat) (all_seqs : list string) : M (list string) :=
  let* sampled_tokens :=
    lift (match all_sampled_tokens with
          | None => Err UnboundLocalError
          | Some l => match l !! sample_idx with
                      | Some t => Ok t
                      | None => Err IndexError
                      end
          end) in
  let* encoder_out := lift (slice_encoder_out all_encoder_out sample_idx) in
  let* sampled_tokens :=
    for_each (seq 1 L)
      (sample_step self mask_idx encoder_out incremental_state temp)
      sampled_tokens in
  let* syms := lift (decode_symbols (dictionary self) sampled_tokens 0) in
  ret (all_seqs ++ [join syms])%list.

Definition sample_batch (self : Model) (a : Args) : M (list string) :=
  let L := length (coords a) in
  let batch := replicate (num_samples a) (coords a, confidence a) in
  let* '(batch_coords, conf, padding_mask) :=
    lift (batch_converter (dictionary self) batch (device a)) in
  let* '(mask_idx, sampled_tokens) :=
    lift (init_tokens (dictionary self) L (partial_seq a)) in
  let* incremental_state := new_dict in
  let* all_encoder_out := call_encoder self batch_coords padding_mask conf in
  let all_sampled_tokens :=
    match device a with
    | Some _ => Some (replicate (num_samples a) sampled_tokens)
    | None => None
    end in
  for_each (seq 0 (num_samples a))
    (sample_batch_body self mask_idx all_encoder_out incremental_state
       (temperature a) L all_sampled_tokens)
    [].

(** *** [sample_batch2] (lines 231-333) *)

(** The loop over [j in range(logits.shape[1])] of one decoding step
    (lines 317-321); the draw that is printed comes before the draw that
    is stored. *)
Definition batch2_row (mask_idx : Z) (probs : probs3 Scalar) (i : nat)
    (j : nat) (sampled_tokens : list (list Z)) : M (list (list Z)) :=
  let* cell := lift (cell_slice sampled_tokens j i) in
  let* is_mask := lift (cell_is cell mask_idx) in
  if is_mask then
    let* pj := lift (p3_slice1 probs j) in
    let* printed := multinomial pj in
    let* pj := lift (p3_slice1 probs j) in
    let* drawn := multinomial pj in
    lift (set_cell sampled_tokens j i drawn)
  else ret sampled_tokens.

Definition batch2_step (self : Model) (mask_idx : Z) (encoder_out : EncOut)
    (incremental_state : nat) (temp : Q) (i : nat) (sampled_tokens : list (list Z))
    : M (list (list Z)) :=
  let* logits := call_decoder self (prefix_cols i sampled_tokens) encoder_out
                   incremental_state in
  let logits := t3_transpose01 logits in
  let logits := t3_map (λ x, fdiv x temp) logits in
  let probs := t3_softmax softmax_vec logits in
  for_each (seq 0 (t3_d1 logits)) (batch2_row mask_idx probs i) sampled_tokens.

Definition sample_batch2 (self : Model) (a : Args) : M (list string) :=
  let L := length (coords a) in
  let batch := replicate (num_samples a) (coords a, confidence a) in
  let* '(batch_coords, conf, padding_mask) :=
    lift (batch_converter (dictionary self) batch (device a)) in
  let* '(mask_idx, sampled_tokens) :=
    lift (init_tokens (dictionary self) L (partial_seq a)) in
  let* incremental_state := new_dict in
  let* all_encoder_out := call_encoder self batch_coords padding_mask conf in
  let sampled_tokens :=
    match device a with
    | Some _ => mjoin (replicate (num_samples a) sampled_tokens)
    | None => sampled_tokens
    end in
  let* encoder_out := lift (copy_encoder_out all_encoder_out) in
  let* sampled_tokens :=
    for_each (seq 1 L)
      (batch2_step self mask_idx encoder_out incremental_state (temperature a))
      sampled_tokens in
  for_each (seq 0 (num_samples a))
    (λ sample_idx all_seqs,
       let* syms := lift (decode_symbols (dictionary self) sampled_tokens sample_idx) in
       ret (all_seqs ++ [join syms])%list)
    [].

End Sampling.

(** ** Specification-side definitions *)

(** The symbol a partial sequence supplies for position [i] (0-based);
    a position it does not reach counts as ['<mask>']. *)
Definition symbol_at (ps : option (list string)) (i : nat) : string :=
  match ps with
  | Some p => default "<mask>" (p !! i)
  | None => "<mask>"
  end.

(** The token buffer as the data model describes it: position 0 holds the
    sequence-start index and position [i+1] the index of the symbol for
    position [i]. *)
Definition init_tokens_spec (d : Vocabulary) (L : nat) (f : nat → string)
    : Result (Z * list (list Z)) :=
  let? mask_idx := get_idx d "<mask>" in
  let? cath := get_idx d "<cath>" in
  let? vals := rmapM (λ i, get_idx d (f i)) (seq 0 L) in
  Ok (mask_idx, [cath :: vals]).

(** [row'] agrees with [row] wherever [row] holds something else than
    [m], and at every position outside [visited]. *)
Definition keeps_except (m : Z) (visited : list nat) (row row' : list Z) : Prop :=
  length row' = length row ∧
  ∀ c v, row !! c = Some v → v ≠ m ∨ c ∉ visited → row' !! c = Some v.

(** What a trace entry is, forgetting the tensors: the encoder, the
    decoder on a prefix of [i] columns, or a multinomial draw. *)
Inductive kind :=
  | KEnc
  | KDec (i : nat)
  | KDraw.

Definition kind_of `{Env} (e : Event) : kind :=
  match e with
  | EvEncoder _ _ _ => KEnc
  | EvDecoder _ prev _ _ _ => KDec (from_option length 0 (prev !! 0))
  | EvMultinomial _ => KDraw
  end.

Definition is_decoder (k : kind) : bool :=
  match k with KDec _ => true | _ => false end.

Definition is_draw (k : kind) : bool :=
  match k with KDraw => true | _ => false end.

(** The invocations of one decode loop of [sample] over the positions
    [steps], for a buffer row that starts as [row]: a decoder step at
    every position, followed by a draw where the row holds [m]. *)
Definition loop_kinds (m : Z) (row : list Z) (steps : list nat) : list kind :=
  steps ≫= λ i, KDec i :: (if bool_decide (row !! i = Some m) then [KDraw] else []).

(** The number of decoder invocations among trace entries. *)
Definition decoder_calls (ks : list kind) : nat := length (List.filter is_decoder ks).

Definition draws (ks : list kind) : nat := length (List.filter is_draw ks).

(** [out] spells the positions 1..L of a final buffer row that still
    holds every caller-fixed entry of the initial row [row0]. *)
Definition good_output (d : Vocabulary) (m : Z) (L : nat) (row0 : list Z)
    (out : string) : Prop :=
  ∃ row' syms,
    keeps_except m (seq 1 L) row0 row' ∧
    rmapM (get_tok d) (drop 1 row') = Ok syms ∧
    out = join syms.

(** The same, row by row, for a batched buffer. *)
Definition rows_keep (m : Z) (visited : list nat) (t t' : list (list Z)) : Prop :=
  length t' = length t ∧
  ∀ r row, t !! r = Some row →
    ∃ row', t' !! r = Some row' ∧ keeps_except m visited row row'.

(** The three sampling strategies behind one entry point; [sample]
    returns its one sequence as a singleton. *)
Inductive strategy := Sample | SampleBatch | SampleBatch2.

Definition run `{Env} (s : strategy) (self : Model) (a : Args) : M (list string) :=
  match s with
  | Sample => let* out := sample self a in ret [out]
  | SampleBatch => sample_batch self a
  | SampleBatch2 => sample_batch2 self a
  end.

(** How many sequences a strategy returns, how many decode loops of L
    steps it runs, and the batch it hands to the converter. *)
Definition outputs_of `{Env} (s : strategy) (a : Args) : nat :=
  match s with Sample => 1 | _ => num_samples a end.

Definition decode_loops `{Env} (s : strategy) (a : Args) : nat :=
  match s with SampleBatch => num_samples a | _ => 1 end.

Definition batch_of `{Env} (s : strategy) (a : Args) : list (list Coord * option Conf) :=
  match s with
  | Sample => [(coords a, confidence a)]
  | _ => replicate (num_samples a) (coords a, confidence a)
  end.

Definition encoder_calls (ks : list kind) : nat :=
  length (List.filter (λ k, match k with KEnc => true | _ => false end) ks).

(** [chained addr P c evs c']: the entries [evs] are decoder invocations
    and draws only; every decoder invocation is handed the dict at address
    [addr] and an encoder output satisfying [P]; the first finds the dict
    with content [c], each later one finds exactly what the previous one
    left, and the last leaves [c']. *)
Inductive chained `{Env} (addr : nat) (P : EncOut → Prop)
    : Cache → list Event → Cache → Prop :=
  | chained_nil c : chained addr P c [] c
  | chained_decoder c c' c'' prev enc evs :
      P enc → chained addr P c' evs c'' →
      chained addr P c (EvDecoder addr prev enc c c' :: evs) c''
  | chained_draw c c' probs evs :
      chained addr P c evs c' →
      chained addr P c (EvMultinomial probs :: evs) c'.

(** A computation step from [st] to [st'] that touches the store only at
    [addr] and extends the trace by a chain. *)
Definition threads `{Env} (addr : nat) (P : EncOut → Prop) (st st' : State) : Prop :=
  ∃ c c' evs,
    store st !! addr = Some c ∧
    store st' = <[addr := c']> (store st) ∧
    trace st' = (trace st ++ evs)%list ∧
    chained addr P c evs c'.

Definition M_threads `{Env} {A} (addr : nat) (P : EncOut → Prop) (m : M A) : Prop :=
  ∀ st, is_Some (store st !! addr) → threads addr P st (m st).2.

(** How the encoder output a strategy hands to the decoder derives from
    the encoder's result. *)
Definition derived_from `{Env} (s : strategy) (all_encoder_out e : EncOut) : Prop :=
  match s with
  | Sample => e = all_encoder_out
  | SampleBatch => ∃ k, slice_encoder_out all_encoder_out k = Ok e
  | SampleBatch2 => copy_encoder_out all_encoder_out = Ok e
  end.

(** The part of each method that follows the encoder call. *)
Definition sample_rest `{Env} (self : Model) (a : Args) (m : Z) (t0 : list (list Z)) (addr : nat)
    (enc : EncOut) : M string :=
  let* sampled_tokens :=
    for_each (seq 1 (length (coords a)))
      (sample_step self m enc addr (temperature a)) t0 in
  let* syms := lift (decode_symbols (dictionary self) sampled_tokens 0) in
  ret (join syms).

Definition sample_batch2_rest `{Env} (self : Model) (a : Args) (m : Z) (t0 : list (list Z)) (addr : nat)
    (all : EncOut) : M (list string) :=
  let* encoder_out := lift (copy_encoder_out all) in
  let* sampled_tokens :=
    for_each (seq 1 (length (coords a)))
      (batch2_step self m encoder_out addr (temperature a)) t0 in
  for_each (seq 0 (num_samples a))
    (λ sample_idx all_seqs,
       let* syms := lift (decode_symbols (dictionary self) sampled_tokens sample_idx) in
       ret (all_seqs ++ [join syms])%list)
    [].

(** The state a call leaves, whatever its outcome: either nothing
    happened (the call failed before [dict()]), or one dict was allocated,
    the encoder was invoked once, and everything after is a chain on that
    dict. *)
Definition run_shape `{Env} (self : Model) (s : strategy) (a : Args) (st st' : State) : Prop :=
  (st' = st ∧
   ((∃ e, batch_converter (dictionary self) (batch_of s a) (device a) = Err e) ∨
    (∃ e, init_tokens (dictionary self) (length (coords a)) (partial_seq a) = Err e))) ∨
  ∃ bc cf pm c' evs,
    batch_converter (dictionary self) (batch_of s a) (device a) = Ok (bc, cf, pm) ∧
    trace st' = (trace st ++ EvEncoder bc pm cf :: evs)%list ∧
    store st' = (store st ++ [c'])%list ∧
    chained (length (store st))
      (λ e, ∃ all, encoder self bc pm cf = Ok all ∧ derived_from s all e) ∅ evs c'.

(** The trace entries a call has added. *)
Definition new_events `{Env} (st st' : State) : list Event :=
  drop (length (trace st)) (trace st').


(** The unrestricted reading of "supplied symbols are preserved": every
    supplied symbol, ['<mask>'] included, is found at its position in every
    returned sequence. *)
Definition preserved_verbatim `{Env} (s : strategy) (self : Model) (a : Args)
    (st : State) : Prop :=
  ∀ outs st' p i c,
    run s self a st = (Ok outs, st') →
    partial_seq a = Some p → p !! i = Some c →
    ∀ out, out ∈ outs →
      ∃ syms, out = join syms ∧ length syms = length (coords a) ∧
              syms !! i = Some c.

(** The arguments [a] with another temperature. *)
Definition with_temperature `{Env} (a : Args) (T : Q) : Args :=
  {| coords := coords a; num_samples := num_samples a; partial_seq := partial_seq a;
     temperature := T; confidence := confidence a; device := device a |}.

(** "The call fails before any decoder invocation". *)
Definition fails_before_decoding `{Env} (s : strategy) (self : Model) (a : Args)
    (st : State) : Prop :=
  ∃ e, (run s self a st).1 = Err e ∧
       decoder_calls (kind_of <$> new_events st (run s self a st).2) = 0.

(** The contracts of the collaborators under which a call is expected to
    return: the vocabulary has the two special symbols, the encoder
    answers, the decoder answers every prefix of a batch of B rows with
    logits of shape (B, V, 1), the layout [sample] reads, and for a
    positive temperature the softmax of V scaled logits is a distribution
    from which a vocabulary index is drawn. *)
Record Contracts `{Env} (self : Model) : Prop := {
  has_mask : "<mask>" ∈ all_toks (dictionary self);
  has_cath : "<cath>" ∈ all_toks (dictionary self);
  encoder_answers : ∀ bc pm cf, ∃ all, encoder self bc pm cf = Ok all;
  decoder_answers : ∀ prev enc c, ∃ lg c',
    decoder self prev enc c = Ok (lg, c') ∧
    t3_d0 lg = length prev ∧
    t3_d1 lg = length (all_toks (dictionary self)) ∧
    t3_d2 lg = 1;
  draw_answers : ∀ (T : Q) (v : list Scalar) (g : Rng),
    (0 < T)%Q → length v = length (all_toks (dictionary self)) →
    ∃ k g', draw (softmax_vec ((λ x, fdiv x T) <$> v)) g = (Ok k, g') ∧
            (0 ≤ k < Z.of_nat (length (all_toks (dictionary self))))%Z }.

(** A vocabulary index. *)
Definition in_vocab (d : Vocabulary) (v : Z) : Prop :=
  (0 ≤ v < Z.of_nat (length (all_toks d)))%Z.

(** ** Further observations on a trace *)

(** The token prefixes the decoder was invoked on, in order. *)
Definition decoder_prefixes `{Env} (evs : list Event) : list (list (list Z)) :=
  omap (λ e, match e with
             | EvDecoder _ prev _ _ _ => Some prev
             | _ => None
             end) evs.

(** The number of positions 0..L-1 a partial sequence leaves to be
    sampled: those it does not reach and those it marks ['<mask>']. *)
Definition masked_positions (ps : option (list string)) (L : nat) : nat :=
  length (List.filter (λ i, bool_decide (symbol_at ps i = "<mask>")) (seq 0 L)).

(** A computation that advances the generator through multinomial calls
    only: it extends the trace, and leaves the generator as it found it
    when it has added no draw. *)
Definition rng_frame `{Env} {A} (m : M A) : Prop :=
  ∀ st, ∃ evs,
    trace (m st).2 = (trace st ++ evs)%list ∧
    (draws (kind_of <$> evs) = 0 → rng (m st).2 = rng st).

(** ** What [sample] needs of its collaborators *)

(** The incremental states that reach the decoder together with the
    encoder output [enc]: the empty dict, and what the decoder has left
    when it was handed such a state and a prefix of vocabulary indices. *)
Inductive handed `{Env} (self : Model) (enc : EncOut) : Cache → Prop :=
  | handed_empty : handed self enc ∅
  | handed_next prev c lg c' :
      handed self enc c →
      Forall (Forall (in_vocab (dictionary self))) prev →
      decoder self prev enc c = Ok (lg, c') →
      handed self enc c'.

(** The collaborators answer a call at temperature [T] in which the
    encoder has returned [enc]: the vocabulary has the two special
    symbols; the decoder, handed [enc], a prefix of vocabulary indices and
    an incremental state of its own making, answers with logits of shape
    (B, V, 1); and, when [T] is positive, the softmax of the logits it has
    returned, divided by [T], is a distribution from which a vocabulary
    index is drawn. *)
Record Answers `{Env} (self : Model) (T : Q) (enc : EncOut) : Prop := {
  ans_mask : "<mask>" ∈ all_toks (dictionary self);
  ans_cath : "<cath>" ∈ all_toks (dictionary self);
  ans_decoder : ∀ prev c,
    Forall (Forall (in_vocab (dictionary self))) prev →
    handed self enc c →
    ∃ lg c',
      decoder self prev enc c = Ok (lg, c') ∧
      t3_d0 lg = length prev ∧
      t3_d1 lg = length (all_toks (dictionary self)) ∧
      t3_d2 lg = 1;
  ans_draw : ∀ prev c lg c' (g : Rng),
    (0 < T)%Q →
    Forall (Forall (in_vocab (dictionary self))) prev →
    handed self enc c →
    decoder self prev enc c = Ok (lg, c') →
    ∃ k g',
      draw (softmax_vec ((λ b, fdiv (t3_el lg 0 b 0) T) <$> seq 0 (t3_d1 lg))) g
        = (Ok k, g') ∧
      in_vocab (dictionary self) k }.

(** The literal reading of "[sample] returns a string of length exactly
    L": a string of L characters. *)
Definition returns_L_characters `{Env} (self : Model) (a : Args) (st : State) : Prop :=
  ∃ out st', sample self a st = (Ok out, st') ∧
             String.length out = length (coords a).

(** ** The generator along a trace *)






(** ** A concrete world, for running the model

    Numeric values are erased ([Scalar := unit]); the generator is a tape
    of pre-drawn numbers, each reduced modulo the number of categories.
    The decoder counts its invocations in the incremental state under the
    key ["steps"]. *)
Module Toy.

#[export] Instance toy_env : Env := {|
  Coord := unit;
  Conf := list unit;
  Device := string;
  Tn := nat;
  Opaque := unit;
  CVal := nat;
  Scalar := unit;
  Rng := list nat;
  fdiv := λ x _, x;
  softmax_vec := λ v, v;
  draw := λ v g,
    match v with
    | [] => (Err RuntimeError, g)
    | _ => match g with
           | k :: g' => (Ok (Z.of_nat (k mod length v)), g')
           | [] => (Ok 0%Z, [])
           end
    end;
  slice_dim0 := λ _ _, Ok 1;
  slice_dim1 := λ _ _, Ok 1;
  slice_opaque := λ _ _, None;
  batch_converter := λ _ batch _,
    if forallb (λ '(c, cf), match cf with
                            | Some l => length l =? length c
                            | None => true
                            end) batch
    then Ok (length batch, length batch, length batch)
    else Err (External "ValueError")
|}.

Definition toy_vocab : Vocabulary :=
  {| all_toks := ["<cath>"; "<mask>"; "A"; "C"; "D"] |}.

Definition toy_encoder (batch_coords padding_mask conf : nat) : Result EncOut :=
  Ok (<["encoder_padding_mask" := EList [padding_mask]]>
        (<["encoder_out" := EList [batch_coords]]> ∅)).

Definition bump (c : Cache) : Cache :=
  <["steps" := S (default 0 (c !! "steps"))]> c.

(** Logits of shape (B, V, 1): the layout [sample] reads. *)
Definition toy_decoder (prev : list (list Z)) (enc : EncOut) (c : Cache)
    : Result (tensor3 Scalar * Cache) :=
  Ok (Tensor3 (length prev) 5 1 (λ _ _ _, tt), bump c).

(** Logits of shape (B, 1, V). *)
Definition toy_decoder_btv (prev : list (list Z)) (enc : EncOut) (c : Cache)
    : Result (tensor3 Scalar * Cache) :=
  Ok (Tensor3 (length prev) 1 5 (λ _ _ _, tt), bump c).

Definition toy : Model :=
  {| dictionary := toy_vocab; encoder := toy_encoder; decoder := toy_decoder |}.

Definition toy_btv : Model :=
  {| dictionary := toy_vocab; encoder := toy_encoder; decoder := toy_decoder_btv |}.

Definition st0 : State := mkState _ [2; 3; 4; 7; 8; 9; 12; 13] [] [].

Definition args (L n : nat) (p : option (list string)) (T : Q) (dev : option string)
    : Args :=
  {| coords := replicate L tt; num_samples := n; partial_seq := p;
     temperature := T; confidence := None; device := dev |}.

(** A decoder over a vocabulary of one symbol: logits of shape (B, 1, 1). *)
Definition toy_one : Model :=
  {| dictionary := toy_vocab; encoder := toy_encoder;
     decoder := λ prev _ c, Ok (Tensor3 (length prev) 1 1 (λ _ _ _, tt), bump c) |}.

(** An encoder whose result lacks the two tensor lists. *)
Definition toy_bare : Model :=
  {| dictionary := toy_vocab; encoder := λ _ _ _, Ok ∅; decoder := toy_decoder |}.

(** An encoder result with two tensors per list and one more key. *)
Definition toy_all : EncOut :=
  <["encoder_padding_mask" := EList [2; 2]]>
    (<["encoder_out" := EList [2; 2]]>
       (<["src_lengths" := EOther tt]> ∅)).

(** What a decoder invocation found and left under ["steps"]. *)
Definition steps_seen (e : Event) : option (option nat * option nat) :=
  match e with
  | EvDecoder _ _ _ cin cout => Some (cin !! "steps", cout !! "steps")
  | _ => None
  end.

End Toy.

(** * Properties *)

(** ** Results and vocabulary *)

Lemma rbind_ok_inv {A B} (m : Result A) (k : A → Result B) b :
  rbind m k = Ok b → ∃ a, m = Ok a ∧ k a = Ok b.
Proof. destruct m; simpl; [eauto | discriminate]. Qed.

Lemma rmapM_app {A B} (f : A → Result B) (l1 l2 : list A) :
  rmapM f (l1 ++ l2) =
  let? ys1 := rmapM f l1 in let? ys2 := rmapM f l2 in Ok (ys1 ++ ys2)%list.
Proof.
  induction l1 as [|x l1 IH]; simpl.
  - by destruct (rmapM f l2).
  - destruct (f x); simpl; [|done]. rewrite IH.
    destruct (rmapM f l1); simpl; [|done]. by destruct (rmapM f l2).
Qed.

Lemma rmapM_ok {A B} (f : A → Result B) (l : list A) ys :
  rmapM f l = Ok ys →
  length ys = length l ∧
  ∀ i x, l !! i = Some x → ∃ y, f x = Ok y ∧ ys !! i = Some y.
Proof.
  revert ys. induction l as [|x l IH]; simpl; intros ys Hm.
  - inversion Hm. split; [done|]. intros i x Hx. by destruct i.
  - apply rbind_ok_inv in Hm as (y & Hy & Hm).
    apply rbind_ok_inv in Hm as (ys' & Hys & Hm). inversion Hm; subst.
    destruct (IH _ Hys) as [Hlen Hall]. split; [simpl; lia|].
    intros [|i] x' Hx'; simpl in *.
    + inversion Hx'; subst. eauto.
    + eauto.
Qed.

Lemma rmapM_total {A B} (f : A → Result B) (l : list A) :
  (∀ x, x ∈ l → ∃ y, f x = Ok y) → ∃ ys, rmapM f l = Ok ys.
Proof.
  induction l as [|x l IH]; simpl; intros Hf; [eauto|].
  destruct (Hf x) as [y Hy]; [left|]. rewrite Hy. simpl.
  destruct IH as [ys Hys]; [intros; apply Hf; by right|].
  rewrite Hys. simpl. eauto.
Qed.

Lemma rmapM_const {A B} (f : A → Result B) (l : list A) y :
  (∀ x, x ∈ l → f x = Ok y) → rmapM f l = Ok (replicate (length l) y).
Proof.
  induction l as [|x l IH]; simpl; intros Hf; [done|].
  rewrite Hf; [|left]. simpl. rewrite IH; [done|]. intros; apply Hf; by right.
Qed.


Lemma rmapM_fmap {A B C} (f : B → Result C) (g : A → B) (l : list A) :
  rmapM f (g <$> l) = rmapM (f ∘ g) l.
Proof. induction l as [|x l IH]; csimpl; [done|]. by rewrite IH. Qed.

Section VocabularyFacts.
Variable d : Vocabulary.

Lemma get_idx_ok c k :
  get_idx d c = Ok k → ∃ n, k = Z.of_nat n ∧ all_toks d !! n = Some c.
Proof.
  unfold get_idx. destruct (list_find _ _) as [[n t]|] eqn:Hf; [|discriminate].
  intros Hk; inversion Hk; subst. apply list_find_Some in Hf as (Hn & -> & _).
  eauto.
Qed.

(** The two directions of the vocabulary agree on every known symbol. *)
Lemma get_tok_get_idx c k : get_idx d c = Ok k → get_tok d k = Ok c.
Proof.
  intros (n & -> & Hn)%get_idx_ok. unfold get_tok.
  rewrite bool_decide_true by lia. by rewrite Nat2Z.id, Hn.
Qed.

Lemma get_idx_inj c c' k : get_idx d c = Ok k → get_idx d c' = Ok k → c = c'.
Proof.
  intros H1%get_tok_get_idx H2%get_tok_get_idx. congruence.
Qed.

Lemma get_idx_known c : c ∈ all_toks d → ∃ k, get_idx d c = Ok k.
Proof.
  intros Hc. unfold get_idx.
  destruct (list_find _ _) as [[n t]|] eqn:Hf; [eauto|].
  apply list_find_None in Hf. rewrite Forall_forall in Hf.
  by destruct (Hf c Hc).
Qed.

Lemma get_idx_unknown c : c ∉ all_toks d → get_idx d c = Err KeyError.
Proof.
  intros Hc. unfold get_idx.
  destruct (list_find _ _) as [[n t]|] eqn:Hf; [|done].
  apply list_find_Some in Hf as (Hn & -> & _).
  destruct Hc. by eapply list_elem_of_lookup_2.
Qed.

Lemma get_idx_err c e : get_idx d c = Err e → e = KeyError ∧ c ∉ all_toks d.
Proof.
  intros He. destruct (decide (c ∈ all_toks d)) as [Hc|Hc].
  - destruct (get_idx_known _ Hc) as [k Hk]. congruence.
  - rewrite (get_idx_unknown _ Hc) in He. split; [congruence | done].
Qed.

Lemma get_idx_range c k :
  get_idx d c = Ok k → (0 ≤ k < Z.of_nat (length (all_toks d)))%Z.
Proof.
  intros (n & -> & Hn)%get_idx_ok. apply lookup_lt_Some in Hn. lia.
Qed.

Lemma get_tok_total k :
  (0 ≤ k < Z.of_nat (length (all_toks d)))%Z → ∃ t, get_tok d k = Ok t.
Proof.
  intros Hk. unfold get_tok. rewrite bool_decide_true by lia.
  destruct (lookup_lt_is_Some_2 (all_toks d) (Z.to_nat k)) as [t Ht]; [lia|].
  rewrite Ht. eauto.
Qed.

End VocabularyFacts.

(** ** The token buffer *)

Lemma set2_ok t r c v t' :
  set2 t r c v = Ok t' →
  ∃ row, t !! r = Some row ∧ c < length row ∧ t' = <[r := <[c := v]> row]> t.
Proof.
  unfold set2. destruct (t !! r) as [row|]; [|discriminate].
  case_bool_decide; [|discriminate]. intros Ht; inversion Ht. eauto.
Qed.

Lemma set2_err t r c v e : set2 t r c v = Err e → e = IndexError.
Proof.
  unfold set2. destruct (t !! r) as [row|]; [|congruence].
  case_bool_decide; congruence.
Qed.

Lemma write_partial_eq d p : ∀ i row,
  i + length p < length row →
  write_partial d p i [row] =
  let? vals := rmapM (get_idx d) p in
  Ok [take (i + 1) row ++ vals ++ drop (i + 1 + length p) row]%list.
Proof.
  induction p as [|c p IH]; intros i row Hlen; simpl in *.
  - rewrite Nat.add_0_r. by rewrite take_drop.
  - destruct (get_idx d c) as [v|e]; simpl; [|done].
    unfold set2. simpl. rewrite bool_decide_true by lia. simpl.
    rewrite IH by (rewrite length_insert; lia).
    destruct (rmapM (get_idx d) p) as [vals|e]; simpl; [|done].
    do 2 f_equal.
    replace (S i + 1) with (S (i + 1)) by lia.
    destruct (lookup_lt_is_Some_2 row (i + 1)) as [x Hx]; [lia|].
    erewrite take_S_r by (rewrite list_lookup_insert_eq; [done | lia]).
    rewrite take_insert_ge by lia.
    rewrite drop_insert_lt by lia.
    rewrite <- app_assoc. simpl.
    by replace (i + 1 + S (length p)) with (S (i + 1 + length p)) by lia.
Qed.

Lemma write_partial_too_long d p : ∀ i row,
  p ≠ [] → length row ≤ i + length p →
  ∃ e, write_partial d p i [row] = Err e ∧ (e = IndexError ∨ e = KeyError).
Proof.
  induction p as [|c p IH]; intros i row Hne Hlen; [done|]. simpl in *.
  destruct (get_idx d c) as [v|e] eqn:Hc; simpl.
  - unfold set2. simpl. case_bool_decide as Hi; simpl; [|eauto].
    apply IH.
    + intros ->. simpl in *. lia.
    + rewrite length_insert. lia.
  - apply get_idx_err in Hc as [-> _]. eauto.
Qed.

Lemma symbol_at_prefix (f : string → Result Z) p :
  rmapM (λ i, f (default "<mask>" (p !! i))) (seq 0 (length p)) = rmapM f p.
Proof.
  induction p as [|c p IH]; [done|].
  simpl length. rewrite <- cons_seq, <- fmap_S_seq. cbn [rmapM].
  rewrite rmapM_fmap, <- IH. reflexivity.
Qed.

(** The code's initialisation builds the buffer of the data model. *)
Lemma init_tokens_eq d L ps :
  length (default [] ps) ≤ L →
  init_tokens d L ps = init_tokens_spec d L (symbol_at ps).
Proof.
  intros Hlen. unfold init_tokens, init_tokens_spec.
  destruct (get_idx d "<mask>") as [m|] eqn:Hm; simpl; [|done].
  destruct (get_idx d "<cath>") as [cath|]; simpl; [|done].
  destruct ps as [p|]; simpl in *.
  - rewrite write_partial_eq by (simpl; rewrite length_replicate; lia).
    assert (seq 0 L = seq 0 (length p) ++ seq (length p) (L - length p))%list
      as -> by (rewrite <- seq_app; f_equal; lia).
    rewrite rmapM_app, symbol_at_prefix.
    destruct (rmapM (get_idx d) p) as [vals|]; simpl; [|done].
    rewrite (rmapM_const _ _ m); simpl.
    + rewrite length_seq. do 4 f_equal.
      rewrite drop_replicate. f_equal.
    + intros i Hi%elem_of_seq.
      rewrite lookup_ge_None_2 by lia. done.
  - rewrite (rmapM_const _ _ m) by done. by rewrite length_seq.
Qed.

Lemma init_tokens_too_long d L p :
  L < length p →
  ∃ e, init_tokens d L (Some p) = Err e ∧ (e = IndexError ∨ e = KeyError).
Proof.
  intros Hlen. unfold init_tokens.
  destruct (get_idx d "<mask>") as [m|e] eqn:Hm; simpl;
    [|apply get_idx_err in Hm as [-> _]; eauto].
  destruct (get_idx d "<cath>") as [cath|e] eqn:Hc; simpl;
    [|apply get_idx_err in Hc as [-> _]; eauto].
  destruct (write_partial_too_long d p 0 (<[0:=cath]> (m :: replicate L m)))
    as (e & He & Hcls).
  - intros ->. simpl in *. lia.
  - simpl. rewrite length_replicate. lia.
  - simpl in He. rewrite He. simpl. eauto.
Qed.

Lemma rmapM_err {A B} (f : A → Result B) (l : list A) e :
  rmapM f l = Err e → ∃ x, x ∈ l ∧ f x = Err e.
Proof.
  induction l as [|x l IH]; simpl; [discriminate|].
  destruct (f x) as [y|e'] eqn:Hx; simpl.
  - destruct (rmapM f l); simpl; [discriminate|].
    intros He; inversion He; subst. destruct IH as (x' & ? & ?); [done|].
    exists x'. split; [by right | done].
  - intros He; inversion He; subst. exists x. split; [left | done].
Qed.

Lemma init_tokens_spec_err d L f e :
  init_tokens_spec d L f = Err e → e = KeyError.
Proof.
  unfold init_tokens_spec.
  destruct (get_idx d "<mask>") as [m|e1] eqn:Hm; simpl;
    [|apply get_idx_err in Hm as [-> _]; congruence].
  destruct (get_idx d "<cath>") as [cath|e1] eqn:Hc; simpl;
    [|apply get_idx_err in Hc as [-> _]; congruence].
  destruct (rmapM _ _) as [vals|e1] eqn:Hv; simpl; [discriminate|].
  apply rmapM_err in Hv as (x & _ & Hx). apply get_idx_err in Hx as [-> _].
  congruence.
Qed.

Lemma init_tokens_spec_ok d L f m t :
  init_tokens_spec d L f = Ok (m, t) →
  get_idx d "<mask>" = Ok m ∧
  ∃ cath row0, get_idx d "<cath>" = Ok cath ∧ t = [row0] ∧
    length row0 = S L ∧ row0 !! 0 = Some cath ∧
    ∀ i, i < L → ∃ v, get_idx d (f i) = Ok v ∧ row0 !! S i = Some v.
Proof.
  unfold init_tokens_spec. intros Hi.
  apply rbind_ok_inv in Hi as (m' & Hm & Hi).
  apply rbind_ok_inv in Hi as (cath & Hc & Hi).
  apply rbind_ok_inv in Hi as (vals & Hv & Hi). inversion Hi; subst.
  apply rmapM_ok in Hv as [Hlen Hall]. rewrite length_seq in Hlen.
  split; [done|]. exists cath, (cath :: vals). repeat split; [done|simpl; lia|].
  intros i Hlt. destruct (Hall i i) as (v & ? & ?); [by apply lookup_seq|].
  exists v. done.
Qed.

(** What a successful initialisation has established. *)
Lemma init_tokens_ok d L ps m t :
  init_tokens d L ps = Ok (m, t) →
  length (default [] ps) ≤ L ∧
  get_idx d "<mask>" = Ok m ∧
  ∃ cath row0, get_idx d "<cath>" = Ok cath ∧ t = [row0] ∧
    length row0 = S L ∧ row0 !! 0 = Some cath ∧
    ∀ i, i < L → ∃ v, get_idx d (symbol_at ps i) = Ok v ∧ row0 !! S i = Some v.
Proof.
  intros Hi.
  assert (length (default [] ps) ≤ L) as Hlen.
  { destruct ps as [p|]; simpl; [|lia].
    destruct (decide (length p ≤ L)) as [|Hn]; [done|].
    destruct (init_tokens_too_long d L p) as (e & He & _); [lia|]. congruence. }
  split; [done|]. rewrite init_tokens_eq in Hi by done.
  by apply init_tokens_spec_ok.
Qed.

Lemma init_tokens_err d L ps e :
  init_tokens d L ps = Err e → e = IndexError ∨ e = KeyError.
Proof.
  intros Hi. destruct (decide (length (default [] ps) ≤ L)) as [Hlen|Hlen].
  - rewrite init_tokens_eq in Hi by done. apply init_tokens_spec_err in Hi. eauto.
  - destruct ps as [p|]; simpl in *; [|lia].
    destruct (init_tokens_too_long d L p) as (e' & He & Hcls); [lia|]. congruence.
Qed.

(** ** The monad *)

Section MonadFacts.
Context `{Env}.

Lemma bind_ok_inv {A B} (m : M A) (k : A → M B) st b st' :
  bind m k st = (Ok b, st') →
  ∃ a st1, m st = (Ok a, st1) ∧ k a st1 = (Ok b, st').
Proof.
  unfold bind. destruct (m st) as [[a|e] st1]; [eauto | discriminate].
Qed.

Lemma lift_inv {A} (r : Result A) st x st' :
  lift r st = (x, st') → x = r ∧ st' = st.
Proof. unfold lift. intros Hl; by inversion Hl. Qed.

Lemma ret_inv {A} (a : A) st x st' :
  ret a st = (x, st') → x = Ok a ∧ st' = st.
Proof. unfold ret. intros Hl; by inversion Hl. Qed.

Lemma draw_rows_length rows : ∀ g ks g',
  draw_rows rows g = (Ok ks, g') → length ks = length rows.
Proof.
  induction rows as [|r rows IH]; simpl; intros g ks g' Hd.
  - by inversion Hd.
  - destruct (draw r g) as [[k|e] g1]; [|discriminate].
    destruct (draw_rows rows g1) as [[ks'|e] g2] eqn:Hrec; [|discriminate].
    inversion Hd; subst. simpl. f_equal. eauto.
Qed.

Lemma multinomial_ok probs st ks st' :
  multinomial probs st = (Ok ks, st') →
  length ks = length probs ∧ store st' = store st ∧
  trace st' = (trace st ++ [EvMultinomial probs])%list.
Proof.
  unfold multinomial. destruct (draw_rows probs (rng st)) as [r g] eqn:Hd.
  intros Hm; inversion Hm; subst. simpl. split; [|done].
  by eapply draw_rows_length.
Qed.

Lemma call_decoder_ok self prev enc addr st lg st' :
  call_decoder self prev enc addr st = (Ok lg, st') →
  ∃ c c', store st !! addr = Some c ∧ decoder self prev enc c = Ok (lg, c') ∧
    store st' = <[addr := c']> (store st) ∧
    trace st' = (trace st ++ [EvDecoder addr prev enc c c'])%list.
Proof.
  unfold call_decoder. destruct (store st !! addr) as [c|]; [|discriminate].
  destruct (decoder self prev enc c) as [[lg' c']|e] eqn:Hd; [|discriminate].
  intros Hc; inversion Hc; subst. simpl. eauto 10.
Qed.

End MonadFacts.

(** ** Writing into the buffer *)

Lemma keeps_except_refl m visited row : keeps_except m visited row row.
Proof. split; [done | auto]. Qed.

Lemma keeps_except_trans m v1 v2 a b c :
  keeps_except m v1 a b → keeps_except m v2 b c →
  keeps_except m (v1 ++ v2) a c.
Proof.
  intros [Hl1 H1] [Hl2 H2]. split; [congruence|].
  intros i v Hv Hor. apply H2.
  - apply H1; [done|]. destruct Hor as [?|Hn]; [by left|].
    right. intros ?. apply Hn. apply elem_of_app. by left.
  - destruct Hor as [?|Hn]; [by left|].
    right. intros ?. apply Hn. apply elem_of_app. by right.
Qed.

Lemma keeps_except_insert m i row v :
  row !! i = Some m → keeps_except m [i] row (<[i := v]> row).
Proof.
  intros Hi. split; [by rewrite length_insert|].
  intros c v0 Hc Hor. destruct (decide (c = i)) as [->|Hne].
  - destruct Hor as [Hv|Hn]; [congruence|]. destruct Hn. by left.
  - by rewrite list_lookup_insert_ne.
Qed.

Lemma keeps_except_lookup m visited row row' c :
  keeps_except m visited row row' → c ∉ visited → row' !! c = row !! c.
Proof.
  intros [Hlen Hk] Hc. destruct (row !! c) as [v|] eqn:Hv.
  - apply Hk; [done | by right].
  - apply lookup_ge_None in Hv. apply lookup_ge_None. lia.
Qed.

Lemma broadcast_ok src n vals :
  broadcast src n = Ok vals → length vals = n ∧ (length src = n ∨ length src = 1).
Proof.
  unfold broadcast. case_bool_decide as Hl.
  - intros Hb; inversion Hb; subst. auto.
  - destruct src as [|v [|? ?]]; try discriminate.
    intros Hb; inversion Hb; subst. rewrite length_replicate. auto.
Qed.

Lemma write_col_ok t i : ∀ vals t',
  write_col t i vals = Ok t' →
  length vals = length t →
  length t' = length t ∧
  ∀ r row, t !! r = Some row →
    ∃ v, vals !! r = Some v ∧ t' !! r = Some (<[i := v]> row).
Proof.
  induction t as [|row0 t IH]; intros vals t' Hw Hlen.
  - destruct vals; simpl in *; [|lia]. inversion Hw; subst. split; [done|].
    intros r row Hr. by destruct r.
  - destruct vals as [|v vals]; simpl in *; [lia|].
    case_bool_decide; [|discriminate].
    apply rbind_ok_inv in Hw as (t'' & Hrec & Hw). inversion Hw; subst.
    destruct (IH _ _ Hrec) as [Hl Hrows]; [lia|]. split; [simpl; lia|].
    intros [|r] row Hr; simpl in *.
    + inversion Hr; subst. eauto.
    + eauto.
Qed.

Lemma set_col_ok t i src t' :
  set_col t i src = Ok t' →
  (length src = length t ∨ length src = 1) ∧
  length t' = length t ∧
  ∀ r row, t !! r = Some row → ∃ v, t' !! r = Some (<[i := v]> row).
Proof.
  unfold set_col. intros Hs. apply rbind_ok_inv in Hs as (vals & Hb & Hw).
  apply broadcast_ok in Hb as [Hl Hsrc].
  apply write_col_ok in Hw as [Hlen Hrows]; [|done].
  split; [done|]. split; [done|]. intros r row Hr.
  destruct (Hrows r row Hr) as (v & _ & ?). eauto.
Qed.

Lemma get2_ok t r c v :
  get2 t r c = Ok v → ∃ row, t !! r = Some row ∧ row !! c = Some v.
Proof.
  unfold get2. destruct (t !! r) as [row|]; [|discriminate].
  destruct (row !! c) as [v'|] eqn:Hc; [|discriminate].
  intros Hg; inversion Hg; subst. eauto.
Qed.

Lemma keeps_except_mono m v1 v2 a b :
  (∀ c, c ∈ v1 → c ∈ v2) → keeps_except m v1 a b → keeps_except m v2 a b.
Proof.
  intros Hsub [Hl Hk]. split; [done|]. intros c v Hc [?|Hn]; apply Hk; auto.
Qed.

Lemma loop_kinds_cons m row i l :
  loop_kinds m row (i :: l) =
  KDec i :: ((if bool_decide (row !! i = Some m) then [KDraw] else [])
             ++ loop_kinds m row l)%list.
Proof. reflexivity. Qed.

Lemma loop_kinds_ext m row row' l :
  (∀ c, c ∈ l → row' !! c = row !! c) →
  loop_kinds m row' l = loop_kinds m row l.
Proof.
  induction l as [|i l IH]; intros Hl; [done|].
  rewrite !loop_kinds_cons, Hl by left. rewrite IH; [done|].
  intros; apply Hl; by right.
Qed.

Lemma decoder_calls_app k1 k2 :
  decoder_calls (k1 ++ k2) = decoder_calls k1 + decoder_calls k2.
Proof. unfold decoder_calls. by rewrite List.filter_app, length_app. Qed.

Lemma draws_app k1 k2 : draws (k1 ++ k2) = draws k1 + draws k2.
Proof. unfold draws. by rewrite List.filter_app, length_app. Qed.

Lemma decoder_calls_loop_kinds m row l :
  decoder_calls (loop_kinds m row l) = length l.
Proof.
  induction l as [|i l IH]; [done|]. rewrite loop_kinds_cons.
  change (KDec i :: ?k) with ([KDec i] ++ k)%list.
  rewrite !decoder_calls_app, IH. by case_bool_decide.
Qed.

(** The draws of a decode loop are as many as the visited positions at
    which the initial row holds the mask index. *)
Lemma draws_loop_kinds m row l :
  draws (loop_kinds m row l) =
  length (List.filter (λ i, bool_decide (row !! i = Some m)) l).
Proof.
  induction l as [|i l IH]; [done|]. rewrite loop_kinds_cons.
  change (KDec i :: ?k) with ([KDec i] ++ k)%list.
  rewrite !draws_app, IH. simpl. by case_bool_decide.
Qed.

(** ** The decode loop of [sample] and [sample_batch] *)

Section SampleLoop.
Context `{Env}.
Variables (self : Model) (m : Z) (enc : EncOut) (addr : nat) (temp : Q).

Lemma kind_of_decoder i (t : list (list Z)) row c c' :
  t !! 0 = Some row → i < length row →
  kind_of (EvDecoder addr (prefix_cols i t) enc c c') = KDec i.
Proof.
  intros Ht Hi. simpl. unfold prefix_cols. rewrite list_lookup_fmap, Ht. simpl.
  rewrite length_take. f_equal. lia.
Qed.

(** One step: the decoder is invoked on the first [i] columns, and only
    a position that holds the mask index is drawn and written. *)
Lemma sample_step_ok i t st t' st' :
  sample_step self m enc addr temp i t st = (Ok t', st') →
  ∃ row row' evs,
    t !! 0 = Some row ∧ i < length row ∧
    t' !! 0 = Some row' ∧ length t' = length t ∧
    keeps_except m [i] row row' ∧
    trace st' = (trace st ++ evs)%list ∧
    kind_of <$> evs = loop_kinds m row [i].
Proof.
  unfold sample_step. intros Hs.
  apply bind_ok_inv in Hs as (lg & st1 & Hdec & Hs).
  apply bind_ok_inv in Hs as (lg0 & st2 & Hidx & Hs).
  apply lift_inv in Hidx as [_ ->].
  apply bind_ok_inv in Hs as (cur & st3 & Hget & Hs).
  apply lift_inv in Hget as [Hget ->]. symmetry in Hget.
  apply get2_ok in Hget as (row & Hrow & Hcur).
  assert (i < length row) as Hi by (by eapply lookup_lt_Some).
  apply call_decoder_ok in Hdec as (c & c' & _ & _ & _ & Htr).
  case_bool_decide as Hm.
  - subst cur.
    apply bind_ok_inv in Hs as (drawn & st4 & Hmul & Hs).
    apply lift_inv in Hs as [Hset ->]. symmetry in Hset.
    apply multinomial_ok in Hmul as (_ & _ & Htr4).
    apply set_col_ok in Hset as (_ & Hlen & Hrows).
    destruct (Hrows 0 row Hrow) as [v Hv].
    eexists row, _, _. split_and!; [done|done|done|done| |by rewrite Htr4, Htr, <- app_assoc|].
    + by apply keeps_except_insert.
    + rewrite loop_kinds_cons, bool_decide_true by done. simpl.
      f_equal. exact (kind_of_decoder i t row c c' Hrow Hi).
  - apply ret_inv in Hs as [Hs ->]. inversion Hs; subst t'.
    eexists row, row, _. split_and!; [done|done|done|done| |done|].
    + apply keeps_except_refl.
    + rewrite loop_kinds_cons, bool_decide_false by congruence. simpl.
      f_equal. exact (kind_of_decoder i t row c c' Hrow Hi).
Qed.

Lemma sample_loop_ok l : NoDup l → ∀ t st t' st',
  for_each l (sample_step self m enc addr temp) t st = (Ok t', st') →
  ∀ row, t !! 0 = Some row →
  ∃ row' evs,
    t' !! 0 = Some row' ∧ length t' = length t ∧
    keeps_except m l row row' ∧
    trace st' = (trace st ++ evs)%list ∧
    kind_of <$> evs = loop_kinds m row l.
Proof.
  induction 1 as [|i l Hi Hnd IH]; intros t st t' st' Hf row Hrow; simpl in Hf.
  - apply ret_inv in Hf as [Hf ->]. inversion Hf; subst.
    exists row, []. rewrite app_nil_r. split_and!; try done; apply keeps_except_refl.
  - apply bind_ok_inv in Hf as (t1 & st1 & Hstep & Hf).
    apply sample_step_ok in Hstep
      as (row0 & row1 & evs1 & Hrow0 & Hlt & Hrow1 & Hlen1 & Hk1 & Htr1 & Hkd1).
    assert (row0 = row) as -> by congruence.
    destruct (IH _ _ _ _ Hf _ Hrow1) as (row' & evs2 & Hrow' & Hlen2 & Hk2 & Htr2 & Hkd2).
    exists row', (evs1 ++ evs2)%list. split_and!.
    + done.
    + congruence.
    + change (i :: l) with ([i] ++ l)%list. by eapply keeps_except_trans.
    + by rewrite Htr2, Htr1, <- app_assoc.
    + rewrite fmap_app, Hkd1, Hkd2, !loop_kinds_cons. simpl.
      rewrite <- app_assoc. simpl. do 2 f_equal.
      apply loop_kinds_ext. intros c Hc.
      eapply keeps_except_lookup; [done|]. intros ->%list_elem_of_singleton. done.
Qed.

End SampleLoop.

(** ** The decode loop of [sample_batch2] *)

Lemma rows_keep_refl m visited t : rows_keep m visited t t.
Proof. split; [done|]. intros r row Hr. exists row. split; [done|]. apply keeps_except_refl. Qed.

Lemma rows_keep_trans m v1 v2 a b c :
  rows_keep m v1 a b → rows_keep m v2 b c → rows_keep m (v1 ++ v2) a c.
Proof.
  intros [Hl1 H1] [Hl2 H2]. split; [congruence|]. intros r row Hr.
  destruct (H1 r row Hr) as (row1 & Hr1 & Hk1).
  destruct (H2 r row1 Hr1) as (row2 & Hr2 & Hk2).
  exists row2. split; [done|]. by eapply keeps_except_trans.
Qed.

Lemma rows_keep_mono m v1 v2 a b :
  (∀ c, c ∈ v1 → c ∈ v2) → rows_keep m v1 a b → rows_keep m v2 a b.
Proof.
  intros Hsub [Hl Hk]. split; [done|]. intros r row Hr.
  destruct (Hk r row Hr) as (row' & ? & ?). exists row'. split; [done|].
  by eapply keeps_except_mono.
Qed.

Lemma set_cell_ok t j i src t' :
  set_cell t j i src = Ok t' →
  (∃ row v, t !! j = Some row ∧ i < length row ∧ length src = 1 ∧
            t' = <[j := <[i := v]> row]> t) ∨
  (t !! j = None ∧ t' = t).
Proof.
  unfold set_cell. destruct (t !! j) as [row|] eqn:Hj.
  - intros Hs. apply rbind_ok_inv in Hs as (vals & Hb & Hs).
    apply broadcast_ok in Hb as [_ Hsrc].
    destruct vals as [|v vals]; [discriminate|].
    apply set2_ok in Hs as (row1 & Hrow1 & Hlt & ->).
    assert (row1 = row) as -> by congruence.
    left. exists row, v. split_and!; try done. by destruct Hsrc.
  - intros Hs. apply rbind_ok_inv in Hs as (vals & _ & Hs).
    inversion Hs. by right.
Qed.

Section Batch2Loop.
Context `{Env}.
Variables (self : Model) (m : Z) (enc : EncOut) (addr : nat) (temp : Q).

Lemma batch2_row_ok probs i j t st t' st' :
  batch2_row m probs i j t st = (Ok t', st') →
  rows_keep m [i] t t' ∧
  ∃ evs, trace st' = (trace st ++ evs)%list ∧
         decoder_calls (kind_of <$> evs) = 0.
Proof.
  unfold batch2_row. intros Hs.
  apply bind_ok_inv in Hs as (cell & st1 & Hcell & Hs).
  apply lift_inv in Hcell as [Hcell ->]. symmetry in Hcell.
  apply bind_ok_inv in Hs as (b & st2 & Hb & Hs).
  apply lift_inv in Hb as [Hb ->]. symmetry in Hb.
  unfold cell_is in Hb. destruct cell as [|v [|? ?]]; try discriminate.
  inversion Hb; subst b. clear Hb.
  unfold cell_slice in Hcell. destruct (t !! j) as [rowj|] eqn:Hj; [|discriminate].
  destruct (rowj !! i) as [v'|] eqn:Hv; [|discriminate].
  inversion Hcell; subst v'. clear Hcell.
  case_bool_decide as Hm.
  - subst v.
    apply bind_ok_inv in Hs as (pj & st3 & Hpj & Hs).
    apply lift_inv in Hpj as [_ ->].
    apply bind_ok_inv in Hs as (printed & st4 & Hpr & Hs).
    apply multinomial_ok in Hpr as (_ & _ & Htr4).
    apply bind_ok_inv in Hs as (pj' & st5 & Hpj' & Hs).
    apply lift_inv in Hpj' as [_ ->].
    apply bind_ok_inv in Hs as (drawn & st6 & Hdr & Hs).
    apply multinomial_ok in Hdr as (_ & _ & Htr6).
    apply lift_inv in Hs as [Hset ->]. symmetry in Hset.
    apply set_cell_ok in Hset as [(row & v & Hrow & Hlt & _ & ->)|[Hnone _]];
      [|congruence].
    assert (row = rowj) as -> by congruence.
    split.
    + split; [by rewrite length_insert|]. intros r row Hr.
      destruct (decide (r = j)) as [->|Hne].
      * assert (row = rowj) as -> by congruence.
        exists (<[i := v]> rowj). split.
        -- apply list_lookup_insert_eq. by eapply lookup_lt_Some.
        -- by apply keeps_except_insert.
      * exists row. split; [by rewrite list_lookup_insert_ne|].
        apply keeps_except_refl.
    + eexists. split; [by rewrite Htr6, Htr4, <- app_assoc|done].
  - apply ret_inv in Hs as [Hs ->]. inversion Hs; subst t'.
    split; [apply rows_keep_refl|]. exists []. by rewrite app_nil_r.
Qed.

Lemma batch2_rows_ok probs i js : ∀ t st t' st',
  for_each js (batch2_row m probs i) t st = (Ok t', st') →
  rows_keep m [i] t t' ∧
  ∃ evs, trace st' = (trace st ++ evs)%list ∧
         decoder_calls (kind_of <$> evs) = 0.
Proof.
  induction js as [|j js IH]; intros t st t' st' Hf; simpl in Hf.
  - apply ret_inv in Hf as [Hf ->]. inversion Hf; subst.
    split; [apply rows_keep_refl|]. exists []. by rewrite app_nil_r.
  - apply bind_ok_inv in Hf as (t1 & st1 & Hrow & Hf).
    apply batch2_row_ok in Hrow as (Hk1 & evs1 & Htr1 & Hd1).
    apply IH in Hf as (Hk2 & evs2 & Htr2 & Hd2).
    split.
    + eapply rows_keep_mono; [|by eapply rows_keep_trans].
      intros c. rewrite elem_of_app. tauto.
    + exists (evs1 ++ evs2)%list. split; [by rewrite Htr2, Htr1, <- app_assoc|].
      rewrite fmap_app, decoder_calls_app. lia.
Qed.

Lemma batch2_step_ok i t st t' st' :
  batch2_step self m enc addr temp i t st = (Ok t', st') →
  rows_keep m [i] t t' ∧
  ∃ evs, trace st' = (trace st ++ evs)%list ∧
         decoder_calls (kind_of <$> evs) = 1.
Proof.
  unfold batch2_step. intros Hs.
  apply bind_ok_inv in Hs as (lg & st1 & Hdec & Hs).
  apply call_decoder_ok in Hdec as (c & c' & _ & _ & _ & Htr).
  apply batch2_rows_ok in Hs as (Hk & evs & Htr2 & Hd).
  split; [done|]. eexists (_ :: evs).
  split; [by rewrite Htr2, Htr, <- app_assoc|].
  rewrite fmap_cons. change (?k :: ?ks) with ([k] ++ ks)%list.
  rewrite decoder_calls_app, Hd. done.
Qed.

Lemma batch2_loop_ok l : ∀ t st t' st',
  for_each l (batch2_step self m enc addr temp) t st = (Ok t', st') →
  rows_keep m l t t' ∧
  ∃ evs, trace st' = (trace st ++ evs)%list ∧
         decoder_calls (kind_of <$> evs) = length l.
Proof.
  induction l as [|i l IH]; intros t st t' st' Hf; simpl in Hf.
  - apply ret_inv in Hf as [Hf ->]. inversion Hf; subst.
    split; [apply rows_keep_refl|]. exists []. by rewrite app_nil_r.
  - apply bind_ok_inv in Hf as (t1 & st1 & Hstep & Hf).
    apply batch2_step_ok in Hstep as (Hk1 & evs1 & Htr1 & Hd1).
    apply IH in Hf as (Hk2 & evs2 & Htr2 & Hd2).
    split.
    + change (i :: l) with ([i] ++ l)%list. by eapply rows_keep_trans.
    + exists (evs1 ++ evs2)%list. split; [by rewrite Htr2, Htr1, <- app_assoc|].
      rewrite fmap_app, decoder_calls_app. simpl. lia.
Qed.

End Batch2Loop.

(** ** Successful calls of the three methods *)

Lemma decoder_calls_mjoin_replicate n ks :
  decoder_calls (mjoin (replicate n ks)) = n * decoder_calls ks.
Proof.
  induction n as [|n IH]; [done|]. simpl. rewrite decoder_calls_app, IH. lia.
Qed.

Section Methods.
Context `{Env}.
Variable self : Model.

Lemma decode_symbols_ok t r syms :
  decode_symbols (dictionary self) t r = Ok syms →
  ∃ row, t !! r = Some row ∧ rmapM (get_tok (dictionary self)) (drop 1 row) = Ok syms.
Proof.
  unfold decode_symbols, row_tail. destruct (t !! r) as [row|]; [|discriminate].
  simpl. eauto.
Qed.

Lemma sample_ok a st out st' :
  sample self a st = (Ok out, st') →
  ∃ bc cf pm m row0 enc evs,
    batch_converter (dictionary self) [(coords a, confidence a)] (device a)
      = Ok (bc, cf, pm) ∧
    init_tokens (dictionary self) (length (coords a)) (partial_seq a) = Ok (m, [row0]) ∧
    encoder self bc pm cf = Ok enc ∧
    good_output (dictionary self) m (length (coords a)) row0 out ∧
    trace st' = (trace st ++ EvEncoder bc pm cf :: evs)%list ∧
    kind_of <$> evs = loop_kinds m row0 (seq 1 (length (coords a))).
Proof.
  unfold sample. intros Hs.
  apply bind_ok_inv in Hs as ([[bc cf] pm] & st1 & Hbc & Hs).
  apply lift_inv in Hbc as [Hbc ->]. symmetry in Hbc.
  apply bind_ok_inv in Hs as ([m t0] & st2 & Hinit & Hs).
  apply lift_inv in Hinit as [Hinit ->]. symmetry in Hinit.
  destruct (init_tokens_ok _ _ _ _ _ Hinit) as (_ & _ & cath & row0 & _ & -> & _).
  apply bind_ok_inv in Hs as (addr & st3 & Hnew & Hs).
  unfold new_dict in Hnew. inversion Hnew; subst addr st3. clear Hnew.
  apply bind_ok_inv in Hs as (enc & st4 & Henc & Hs).
  unfold call_encoder in Henc. inversion Henc as [[Henc' Hst4]]. clear Henc.
  apply bind_ok_inv in Hs as (t' & st5 & Hloop & Hs).
  apply (sample_loop_ok _ _ _ _ _ _ (NoDup_seq _ _)) with (row := row0) in Hloop
    as (row' & evs & Hrow' & _ & Hk & Htr & Hkd); [|done].
  apply bind_ok_inv in Hs as (syms & st6 & Hsym & Hs).
  apply lift_inv in Hsym as [Hsym ->]. symmetry in Hsym.
  apply decode_symbols_ok in Hsym as (row1 & Hrow1 & Hsyms).
  assert (row1 = row') as -> by congruence.
  apply ret_inv in Hs as [Hs ->]. inversion Hs; subst out.
  exists bc, cf, pm, m, row0, enc, evs. split_and!; try done.
  - by exists row', syms.
  - rewrite Htr, <- Hst4. simpl. by rewrite <- app_assoc.
Qed.

(** The loop over [sample_idx] of [sample_batch]. *)
Lemma sample_batch_loop_ok m all addr temp L ast row0 ks : ∀ acc st outs st',
  for_each ks (sample_batch_body self m all addr temp L ast) acc st = (Ok outs, st') →
  (∀ l k t, ast = Some l → l !! k = Some t → t = [row0]) →
  ∃ news evs,
    outs = (acc ++ news)%list ∧ length news = length ks ∧
    Forall (good_output (dictionary self) m L row0) news ∧
    trace st' = (trace st ++ evs)%list ∧
    kind_of <$> evs = mjoin (replicate (length ks) (loop_kinds m row0 (seq 1 L))).
Proof.
  induction ks as [|k ks IH]; intros acc st outs st' Hf Hast; simpl in Hf.
  - apply ret_inv in Hf as [Hf ->]. inversion Hf; subst.
    exists [], []. by rewrite !app_nil_r.
  - apply bind_ok_inv in Hf as (acc1 & st1 & Hbody & Hf).
    unfold sample_batch_body in Hbody.
    apply bind_ok_inv in Hbody as (t0 & st2 & Ht0 & Hbody).
    apply lift_inv in Ht0 as [Ht0 ->]. symmetry in Ht0.
    assert (t0 = [row0]) as ->.
    { destruct ast as [l|]; [|discriminate].
      destruct (l !! k) as [t|] eqn:Hk; [|discriminate].
      inversion Ht0; subst. by eapply Hast. }
    apply bind_ok_inv in Hbody as (enc & st3 & Henc & Hbody).
    apply lift_inv in Henc as [_ ->].
    apply bind_ok_inv in Hbody as (t' & st4 & Hloop & Hbody).
    apply (sample_loop_ok _ _ _ _ _ _ (NoDup_seq _ _)) with (row := row0) in Hloop
      as (row' & evs1 & Hrow' & _ & Hk & Htr1 & Hkd1); [|done].
    apply bind_ok_inv in Hbody as (syms & st5 & Hsym & Hbody).
    apply lift_inv in Hsym as [Hsym ->]. symmetry in Hsym.
    apply decode_symbols_ok in Hsym as (row1 & Hrow1 & Hsyms).
    assert (row1 = row') as -> by congruence.
    apply ret_inv in Hbody as [Hbody ->]. inversion Hbody; subst acc1.
    destruct (IH _ _ _ _ Hf Hast) as (news & evs2 & -> & Hlen & Hgood & Htr2 & Hkd2).
    exists (join syms :: news), (evs1 ++ evs2)%list. split_and!.
    + by rewrite <- app_assoc.
    + simpl. lia.
    + constructor; [by exists row', syms | done].
    + by rewrite Htr2, Htr1, <- app_assoc.
    + by rewrite fmap_app, Hkd1, Hkd2.
Qed.

Lemma sample_batch_ok a st outs st' :
  sample_batch self a st = (Ok outs, st') →
  ∃ bc cf pm m row0 enc evs,
    batch_converter (dictionary self)
      (replicate (num_samples a) (coords a, confidence a)) (device a)
      = Ok (bc, cf, pm) ∧
    init_tokens (dictionary self) (length (coords a)) (partial_seq a) = Ok (m, [row0]) ∧
    encoder self bc pm cf = Ok enc ∧
    length outs = num_samples a ∧
    Forall (good_output (dictionary self) m (length (coords a)) row0) outs ∧
    trace st' = (trace st ++ EvEncoder bc pm cf :: evs)%list ∧
    kind_of <$> evs =
      mjoin (replicate (num_samples a)
               (loop_kinds m row0 (seq 1 (length (coords a))))).
Proof.
  unfold sample_batch. intros Hs.
  apply bind_ok_inv in Hs as ([[bc cf] pm] & st1 & Hbc & Hs).
  apply lift_inv in Hbc as [Hbc ->]. symmetry in Hbc.
  apply bind_ok_inv in Hs as ([m t0] & st2 & Hinit & Hs).
  apply lift_inv in Hinit as [Hinit ->]. symmetry in Hinit.
  destruct (init_tokens_ok _ _ _ _ _ Hinit) as (_ & _ & cath & row0 & _ & -> & _).
  apply bind_ok_inv in Hs as (addr & st3 & Hnew & Hs).
  unfold new_dict in Hnew. inversion Hnew; subst addr st3. clear Hnew.
  apply bind_ok_inv in Hs as (enc & st4 & Henc & Hs).
  unfold call_encoder in Henc. inversion Henc as [[Henc' Hst4]]. clear Henc.
  apply sample_batch_loop_ok with (row0 := row0) in Hs
    as (news & evs & -> & Hlen & Hgood & Htr & Hkd).
  - rewrite length_seq in Hlen, Hkd.
    exists bc, cf, pm, m, row0, enc, evs. split_and!; try done.
    rewrite Htr, <- Hst4. simpl. by rewrite <- app_assoc.
  - intros l k t Hl Hk. destruct (device a); [|discriminate].
    inversion Hl; subst l. by apply lookup_replicate in Hk as [-> _].
Qed.

(** The conversion loop that ends [sample_batch2]. *)
Lemma batch2_convert_ok (t : list (list Z)) ks : ∀ acc st outs st',
  for_each ks
    (λ sample_idx all_seqs,
       let* syms := lift (decode_symbols (dictionary self) t sample_idx) in
       ret (all_seqs ++ [join syms])%list) acc st = (Ok outs, st') →
  st' = st ∧
  ∃ news, outs = (acc ++ news)%list ∧ length news = length ks ∧
    Forall (λ out, ∃ row syms, row ∈ t ∧
              rmapM (get_tok (dictionary self)) (drop 1 row) = Ok syms ∧
              out = join syms) news.
Proof.
  induction ks as [|k ks IH]; intros acc st outs st' Hf; simpl in Hf.
  - apply ret_inv in Hf as [Hf ->]. inversion Hf; subst.
    split; [done|]. exists []. by rewrite app_nil_r.
  - apply bind_ok_inv in Hf as (acc1 & st1 & Hbody & Hf).
    apply bind_ok_inv in Hbody as (syms & st2 & Hsym & Hbody).
    apply lift_inv in Hsym as [Hsym ->]. symmetry in Hsym.
    apply decode_symbols_ok in Hsym as (row & Hrow & Hsyms).
    apply ret_inv in Hbody as [Hbody ->]. inversion Hbody; subst acc1.
    destruct (IH _ _ _ _ Hf) as (-> & news & -> & Hlen & Hall).
    split; [done|]. exists (join syms :: news). split_and!.
    + by rewrite <- app_assoc.
    + simpl. lia.
    + constructor; [|done]. exists row, syms. split_and!; try done.
      by eapply list_elem_of_lookup_2.
Qed.

Lemma sample_batch2_ok a st outs st' :
  sample_batch2 self a st = (Ok outs, st') →
  ∃ bc cf pm m row0 enc evs,
    batch_converter (dictionary self)
      (replicate (num_samples a) (coords a, confidence a)) (device a)
      = Ok (bc, cf, pm) ∧
    init_tokens (dictionary self) (length (coords a)) (partial_seq a) = Ok (m, [row0]) ∧
    encoder self bc pm cf = Ok enc ∧
    length outs = num_samples a ∧
    Forall (good_output (dictionary self) m (length (coords a)) row0) outs ∧
    trace st' = (trace st ++ EvEncoder bc pm cf :: evs)%list ∧
    decoder_calls (kind_of <$> evs) = length (coords a).
Proof.
  unfold sample_batch2. intros Hs.
  apply bind_ok_inv in Hs as ([[bc cf] pm] & st1 & Hbc & Hs).
  apply lift_inv in Hbc as [Hbc ->]. symmetry in Hbc.
  apply bind_ok_inv in Hs as ([m t0] & st2 & Hinit & Hs).
  apply lift_inv in Hinit as [Hinit ->]. symmetry in Hinit.
  destruct (init_tokens_ok _ _ _ _ _ Hinit) as (_ & _ & cath & row0 & _ & -> & _).
  apply bind_ok_inv in Hs as (addr & st3 & Hnew & Hs).
  unfold new_dict in Hnew. inversion Hnew; subst addr st3. clear Hnew.
  apply bind_ok_inv in Hs as (all & st4 & Henc & Hs).
  unfold call_encoder in Henc. inversion Henc as [[Henc' Hst4]]. clear Henc.
  apply bind_ok_inv in Hs as (enc & st5 & Hcopy & Hs).
  apply lift_inv in Hcopy as [_ ->].
  apply bind_ok_inv in Hs as (t' & st6 & Hloop & Hs).
  apply batch2_loop_ok in Hloop as ([Hlen Hkeep] & evs & Htr & Hd).
  apply batch2_convert_ok in Hs as (-> & news & -> & Hlen' & Hall).
  rewrite length_seq in Hlen', Hd.
  exists bc, cf, pm, m, row0, all, evs. split_and!; try done.
  - eapply Forall_impl; [exact Hall|]. simpl.
    intros out (row' & syms & Hin & Hsyms & ->).
    apply list_elem_of_lookup in Hin as [r Hr].
    set (t0 := match device a with
               | Some _ => mjoin (replicate (num_samples a) [row0])
               | None => [row0]
               end) in *.
    destruct (lookup_lt_is_Some_2 t0 r) as [row Hrow];
      [apply lookup_lt_Some in Hr; lia|].
    assert (row = row0) as ->.
    { subst t0. destruct (device a).
      - apply list_elem_of_lookup_2, list_elem_of_join in Hrow as (l & Hl & Hl').
        apply elem_of_replicate in Hl' as [-> _].
        by apply list_elem_of_singleton in Hl.
      - destruct r; simpl in Hrow; [congruence | by destruct r]. }
    destruct (Hkeep r row0 Hrow) as (row'' & Hr'' & Hk).
    assert (row'' = row') as -> by congruence.
    by exists row', syms.
  - rewrite Htr, <- Hst4. simpl. by rewrite <- app_assoc.
Qed.

End Methods.

(** ** Every run: how the incremental state and the trace evolve *)

Section Threads.
Context `{Env}.

Lemma chained_app addr P c evs1 c1 evs2 c2 :
  chained addr P c evs1 c1 → chained addr P c1 evs2 c2 →
  chained addr P c (evs1 ++ evs2) c2.
Proof.
  induction 1 as [c|c c' c'' prev enc evs HP Hch IH|c c' probs evs Hch IH];
    intros H2; simpl; [done | |].
  - constructor; auto.
  - constructor; auto.
Qed.

Lemma chained_mono addr (P Q : EncOut → Prop) c evs c' :
  (∀ e, P e → Q e) → chained addr P c evs c' → chained addr Q c evs c'.
Proof. intros HPQ. induction 1; constructor; auto. Qed.

Lemma chained_no_encoder addr P c evs c' :
  chained addr P c evs c' → encoder_calls (kind_of <$> evs) = 0.
Proof. induction 1; done. Qed.

Lemma chained_decoder_calls addr P c evs c' :
  chained addr P c evs c' →
  Forall (λ e, match e with
               | EvDecoder addr' _ enc _ _ => addr' = addr ∧ P enc
               | EvMultinomial _ => True
               | EvEncoder _ _ _ => False
               end) evs.
Proof. induction 1; constructor; auto. Qed.

Lemma threads_refl addr P st :
  is_Some (store st !! addr) → threads addr P st st.
Proof.
  intros [c Hc]. exists c, c, []. split_and!; [done| |by rewrite app_nil_r|constructor].
  by rewrite list_insert_id.
Qed.

Lemma threads_is_Some addr P st st' :
  threads addr P st st' → is_Some (store st' !! addr).
Proof.
  intros (c & c' & evs & Hc & -> & _ & _). exists c'.
  apply list_lookup_insert_eq. by eapply lookup_lt_Some.
Qed.

Lemma threads_trans addr P st1 st2 st3 :
  threads addr P st1 st2 → threads addr P st2 st3 → threads addr P st1 st3.
Proof.
  intros (c & c1 & evs1 & Hc & Hs1 & Ht1 & Hch1) (c1' & c2 & evs2 & Hc1 & Hs2 & Ht2 & Hch2).
  assert (c1' = c1) as ->.
  { rewrite Hs1, list_lookup_insert_eq in Hc1 by (by eapply lookup_lt_Some). congruence. }
  exists c, c2, (evs1 ++ evs2)%list. split_and!.
  - done.
  - by rewrite Hs2, Hs1, list_insert_insert_eq.
  - by rewrite Ht2, Ht1, <- app_assoc.
  - by eapply chained_app.
Qed.

Lemma threads_mono addr (P Q : EncOut → Prop) st st' :
  (∀ e, P e → Q e) → threads addr P st st' → threads addr Q st st'.
Proof.
  intros HPQ (c & c' & evs & ? & ? & ? & ?). exists c, c', evs.
  split_and!; try done. by eapply chained_mono.
Qed.

Lemma M_threads_ret {A} addr P (a : A) : M_threads addr P (ret a).
Proof. intros st Hst. by apply threads_refl. Qed.

Lemma M_threads_lift {A} addr P (r : Result A) : M_threads addr P (lift r).
Proof. intros st Hst. by apply threads_refl. Qed.

Lemma M_threads_bind {A B} addr P (m : M A) (k : A → M B) :
  M_threads addr P m →
  (∀ a st st1, m st = (Ok a, st1) → M_threads addr P (k a)) →
  M_threads addr P (bind m k).
Proof.
  intros Hm Hk st Hst. unfold bind. specialize (Hm st Hst).
  destruct (m st) as [[a|e] st1] eqn:Hms; simpl in *; [|done].
  eapply threads_trans; [done|]. eapply Hk; [done|]. by eapply threads_is_Some.
Qed.

Lemma M_threads_for_each {X} addr P (body : nat → X → M X) l :
  (∀ i x, M_threads addr P (body i x)) →
  ∀ x, M_threads addr P (for_each l body x).
Proof.
  intros Hbody. induction l as [|i l IH]; intros x; simpl.
  - apply M_threads_ret.
  - apply M_threads_bind; [done | auto].
Qed.

Lemma M_threads_mono {A} addr (P Q : EncOut → Prop) (m : M A) :
  (∀ e, P e → Q e) → M_threads addr P m → M_threads addr Q m.
Proof. intros HPQ Hm st Hst. eapply threads_mono; [done | by apply Hm]. Qed.

Lemma M_threads_multinomial addr P probs : M_threads addr P (multinomial probs).
Proof.
  intros st [c Hc]. unfold multinomial.
  destruct (draw_rows probs (rng st)) as [r g]. simpl.
  exists c, c, [EvMultinomial probs]. split_and!; try done.
  - by rewrite list_insert_id.
  - repeat constructor.
Qed.

Lemma M_threads_call_decoder addr (P : EncOut → Prop) self prev enc :
  P enc → M_threads addr P (call_decoder self prev enc addr).
Proof.
  intros HP st [c Hc]. unfold call_decoder. rewrite Hc.
  destruct (decoder self prev enc c) as [[lg c']|e]; simpl.
  - exists c, c', [EvDecoder addr prev enc c c']. split_and!; try done.
    repeat constructor. done.
  - exists c, c, [EvDecoder addr prev enc c c]. split_and!; try done.
    + by rewrite list_insert_id.
    + repeat constructor. done.
Qed.

Lemma M_threads_sample_step addr self m enc temp i t :
  M_threads addr (λ e, e = enc) (sample_step self m enc addr temp i t).
Proof.
  unfold sample_step.
  apply M_threads_bind; [by apply M_threads_call_decoder|]. intros lg _ _ _.
  apply M_threads_bind; [apply M_threads_lift|]. intros lg0 _ _ _.
  apply M_threads_bind; [apply M_threads_lift|]. intros cur _ _ _.
  case_bool_decide; [|apply M_threads_ret].
  apply M_threads_bind; [apply M_threads_multinomial|]. intros drawn _ _ _.
  apply M_threads_lift.
Qed.

Lemma M_threads_batch2_step addr self m enc temp i t :
  M_threads addr (λ e, e = enc) (batch2_step self m enc addr temp i t).
Proof.
  unfold batch2_step.
  apply M_threads_bind; [by apply M_threads_call_decoder|]. intros lg _ _ _.
  apply M_threads_for_each. intros j x. unfold batch2_row.
  apply M_threads_bind; [apply M_threads_lift|]. intros cell _ _ _.
  apply M_threads_bind; [apply M_threads_lift|]. intros b _ _ _.
  destruct b; [|apply M_threads_ret].
  apply M_threads_bind; [apply M_threads_lift|]. intros pj _ _ _.
  apply M_threads_bind; [apply M_threads_multinomial|]. intros printed _ _ _.
  apply M_threads_bind; [apply M_threads_lift|]. intros pj' _ _ _.
  apply M_threads_bind; [apply M_threads_multinomial|]. intros drawn _ _ _.
  apply M_threads_lift.
Qed.

Lemma M_threads_sample_batch_body addr self m all temp L ast k acc :
  M_threads addr (derived_from SampleBatch all)
    (sample_batch_body self m all addr temp L ast k acc).
Proof.
  unfold sample_batch_body.
  apply M_threads_bind; [apply M_threads_lift|]. intros t0 _ _ _.
  apply M_threads_bind; [apply M_threads_lift|]. intros enc st st1 Henc.
  apply lift_inv in Henc as [Henc _].
  apply M_threads_bind.
  - apply M_threads_for_each. intros i x.
    eapply M_threads_mono; [|apply M_threads_sample_step].
    intros e ->. by exists k.
  - intros t' _ _ _.
    apply M_threads_bind; [apply M_threads_lift|]. intros syms _ _ _.
    apply M_threads_ret.
Qed.

End Threads.

Section Runs.
Context `{Env}.
Variable self : Model.

Lemma bind_cases {A B} (m : M A) (k : A → M B) st :
  (∃ a st1, m st = (Ok a, st1) ∧ bind m k st = k a st1) ∨
  (∃ e st1, m st = (Err e, st1) ∧ bind m k st = (Err e, st1)).
Proof.
  unfold bind. destruct (m st) as [[a|e] st1]; [left | right]; eauto.
Qed.

Lemma lift_bind_ok {A B} (r : Result A) (k : A → M B) a st :
  r = Ok a → bind (lift r) k st = k a st.
Proof. by intros ->. Qed.

Lemma lift_bind_err {A B} (r : Result A) (k : A → M B) e st :
  r = Err e → bind (lift r) k st = (Err e, st).
Proof. by intros ->. Qed.

(** What follows [incremental_state = dict()] and the encoder call. *)
Lemma after_prologue {A} (rest : M A) st bc cf pm (P : EncOut → Prop) :
  M_threads (length (store st)) P rest →
  ∃ c' evs,
    trace (rest (mkState _ (rng st) (store st ++ [∅])
             (trace st ++ [EvEncoder bc pm cf]))).2
      = (trace st ++ EvEncoder bc pm cf :: evs)%list ∧
    store (rest (mkState _ (rng st) (store st ++ [∅])
             (trace st ++ [EvEncoder bc pm cf]))).2
      = (store st ++ [c'])%list ∧
    chained (length (store st)) P ∅ evs c'.
Proof.
  intros Hrest.
  set (st4 := mkState _ (rng st) (store st ++ [∅]) (trace st ++ [EvEncoder bc pm cf])).
  assert (store st4 !! length (store st) = Some ∅) as Hnew.
  { simpl. rewrite lookup_app_r by lia. by rewrite Nat.sub_diag. }
  destruct (Hrest st4) as (c & c' & evs & Hc & Hs & Ht & Hch); [by eexists|].
  assert (c = ∅) as -> by congruence.
  exists c', evs. split_and!; [|  |done].
  - rewrite Ht. simpl. by rewrite <- app_assoc.
  - rewrite Hs. simpl. rewrite insert_app_r_alt by lia.
    by rewrite Nat.sub_diag.
Qed.


Lemma M_threads_sample_rest a m t0 addr enc :
  M_threads addr (λ e, e = enc) (sample_rest self a m t0 addr enc).
Proof.
  unfold sample_rest. apply M_threads_bind.
  - apply M_threads_for_each. intros. apply M_threads_sample_step.
  - intros t' _ _ _.
    apply M_threads_bind; [apply M_threads_lift|]. intros. apply M_threads_ret.
Qed.


Lemma M_threads_sample_batch2_rest a m t0 addr all :
  M_threads addr (derived_from SampleBatch2 all) (sample_batch2_rest self a m t0 addr all).
Proof.
  unfold sample_batch2_rest.
  apply M_threads_bind; [apply M_threads_lift|]. intros enc st st1 Henc.
  apply lift_inv in Henc as [Henc _].
  apply M_threads_bind.
  - apply M_threads_for_each. intros.
    eapply M_threads_mono; [|apply M_threads_batch2_step].
    by intros e ->.
  - intros t' _ _ _. apply M_threads_for_each. intros.
    apply M_threads_bind; [apply M_threads_lift|]. intros. apply M_threads_ret.
Qed.


Lemma sample_any a st : run_shape self Sample a st (sample self a st).2.
Proof.
  unfold sample.
  destruct (batch_converter (dictionary self) [(coords a, confidence a)] (device a))
    as [[[bc cf] pm]|e] eqn:Hbc;
    [erewrite lift_bind_ok by done
    | erewrite lift_bind_err by done; left; split; [done | eauto]].
  destruct (init_tokens (dictionary self) (length (coords a)) (partial_seq a))
    as [[m t0]|e] eqn:Hi;
    [erewrite lift_bind_ok by done
    | erewrite lift_bind_err by done; left; split; [done | eauto]].
  unfold bind at 1. unfold new_dict. unfold bind at 1. unfold call_encoder.
  right. exists bc, cf, pm.
  destruct (encoder self bc pm cf) as [enc|e] eqn:Henc.
  - destruct (after_prologue (sample_rest self a m t0 (length (store st)) enc)
               st bc cf pm (λ e, e = enc)) as (c' & evs & Ht & Hs & Hch).
    { apply M_threads_sample_rest. }
    exists c', evs. split_and!; try done.
    eapply chained_mono; [|done]. intros e ->. by exists enc.
  - exists ∅, []. simpl. split_and!; try done. constructor.
Qed.

Lemma sample_batch_any a st : run_shape self SampleBatch a st (sample_batch self a st).2.
Proof.
  unfold sample_batch.
  destruct (batch_converter (dictionary self)
              (replicate (num_samples a) (coords a, confidence a)) (device a))
    as [[[bc cf] pm]|e] eqn:Hbc;
    [erewrite lift_bind_ok by done
    | erewrite lift_bind_err by done; left; split; [done | eauto]].
  destruct (init_tokens (dictionary self) (length (coords a)) (partial_seq a))
    as [[m t0]|e] eqn:Hi;
    [erewrite lift_bind_ok by done
    | erewrite lift_bind_err by done; left; split; [done | eauto]].
  unfold bind at 1. unfold new_dict. unfold bind at 1. unfold call_encoder.
  right. exists bc, cf, pm.
  destruct (encoder self bc pm cf) as [all|e] eqn:Henc.
  - match goal with
    | |- context [for_each ?l ?body ?x] =>
        destruct (after_prologue (for_each l body x) st bc cf pm
                    (derived_from SampleBatch all)) as (c' & evs & Ht & Hs & Hch)
    end.
    { apply M_threads_for_each. intros. apply M_threads_sample_batch_body. }
    exists c', evs. split_and!; try done.
    eapply chained_mono; [|done]. intros e He. by exists all.
  - exists ∅, []. simpl. split_and!; try done. constructor.
Qed.

Lemma sample_batch2_any a st : run_shape self SampleBatch2 a st (sample_batch2 self a st).2.
Proof.
  unfold sample_batch2.
  destruct (batch_converter (dictionary self)
              (replicate (num_samples a) (coords a, confidence a)) (device a))
    as [[[bc cf] pm]|e] eqn:Hbc;
    [erewrite lift_bind_ok by done
    | erewrite lift_bind_err by done; left; split; [done | eauto]].
  destruct (init_tokens (dictionary self) (length (coords a)) (partial_seq a))
    as [[m t0]|e] eqn:Hi;
    [erewrite lift_bind_ok by done
    | erewrite lift_bind_err by done; left; split; [done | eauto]].
  unfold bind at 1. unfold new_dict. unfold bind at 1. unfold call_encoder.
  right. exists bc, cf, pm.
  destruct (encoder self bc pm cf) as [all|e] eqn:Henc.
  - destruct (after_prologue
                (sample_batch2_rest self a m
                   (match device a with
                    | Some _ => mjoin (replicate (num_samples a) t0)
                    | None => t0
                    end) (length (store st)) all)
                st bc cf pm (derived_from SampleBatch2 all))
      as (c' & evs & Ht & Hs & Hch).
    { apply M_threads_sample_batch2_rest. }
    exists c', evs. split_and!; try done.
    eapply chained_mono; [|done]. intros e He. by exists all.
  - exists ∅, []. simpl. split_and!; try done. constructor.
Qed.

Lemma bind_ret_snd {A B} (m : M A) (f : A → B) st :
  (bind m (λ x, ret (f x)) st).2 = (m st).2.
Proof. unfold bind, ret. by destruct (m st) as [[a|e] st1]. Qed.

Lemma run_any s a st : run_shape self s a st (run s self a st).2.
Proof.
  destruct s; simpl.
  - rewrite bind_ret_snd. apply sample_any.
  - apply sample_batch_any.
  - apply sample_batch2_any.
Qed.

End Runs.

(** ** What a successful call of any strategy has done *)

Lemma run_ok `{Env} s self a st outs st' :
  run s self a st = (Ok outs, st') →
  ∃ bc cf pm m row0 all evs,
    batch_converter (dictionary self) (batch_of s a) (device a) = Ok (bc, cf, pm) ∧
    init_tokens (dictionary self) (length (coords a)) (partial_seq a) = Ok (m, [row0]) ∧
    encoder self bc pm cf = Ok all ∧
    length outs = outputs_of s a ∧
    Forall (good_output (dictionary self) m (length (coords a)) row0) outs ∧
    trace st' = (trace st ++ EvEncoder bc pm cf :: evs)%list ∧
    decoder_calls (kind_of <$> evs) = decode_loops s a * length (coords a) ∧
    (s ≠ SampleBatch2 →
     kind_of <$> evs =
       mjoin (replicate (decode_loops s a)
                (loop_kinds m row0 (seq 1 (length (coords a)))))).
Proof.
  destruct s; simpl; intros Hr.
  - apply bind_ok_inv in Hr as (out & st1 & Hs & Hr).
    apply ret_inv in Hr as [Hr ->]. inversion Hr; subst outs.
    apply sample_ok in Hs as (bc & cf & pm & m & row0 & enc & evs & ? & ? & ? & ? & ? & Hkd).
    exists bc, cf, pm, m, row0, enc, evs. split_and!; try done.
    + by constructor.
    + rewrite Hkd, decoder_calls_loop_kinds, length_seq. lia.
    + intros _. simpl. by rewrite app_nil_r.
  - apply sample_batch_ok in Hr
      as (bc & cf & pm & m & row0 & enc & evs & ? & ? & ? & ? & ? & ? & Hkd).
    exists bc, cf, pm, m, row0, enc, evs. split_and!; try done.
    by rewrite Hkd, decoder_calls_mjoin_replicate, decoder_calls_loop_kinds, length_seq.
  - apply sample_batch2_ok in Hr
      as (bc & cf & pm & m & row0 & enc & evs & ? & ? & ? & ? & ? & ? & Hd).
    exists bc, cf, pm, m, row0, enc, evs. split_and!; try done. lia.
Qed.

(** An output spells L vocabulary symbols, with every supplied symbol
    other than ['<mask>'] at its position. *)
Lemma good_output_fixed d L ps m row0 out :
  init_tokens d L ps = Ok (m, [row0]) →
  good_output d m L row0 out →
  ∃ syms, out = join syms ∧ length syms = L ∧
    Forall (λ y, y ∈ all_toks d) syms ∧
    ∀ i, i < L → symbol_at ps i ≠ "<mask>" → syms !! i = Some (symbol_at ps i).
Proof.
  intros Hinit (row' & syms & [Hlen Hk] & Hsyms & ->).
  apply init_tokens_ok in Hinit as (_ & Hm & cath & row0' & _ & Heq & Hlen0 & _ & Hrow0).
  inversion Heq; subst row0'. clear Heq.
  apply rmapM_ok in Hsyms as [Hls Hall]. rewrite length_drop in Hls.
  exists syms. split_and!; [done|lia| |].
  - apply Forall_forall. intros y Hy.
    apply list_elem_of_lookup in Hy as [i Hi].
    destruct (lookup_lt_is_Some_2 (drop 1 row') i) as [v Hv];
      [rewrite length_drop; apply lookup_lt_Some in Hi; lia|].
    destruct (Hall i v Hv) as (y' & Hy' & Hi').
    assert (y' = y) as -> by congruence.
    unfold get_tok in Hy'. case_bool_decide; [|discriminate].
    destruct (all_toks d !! Z.to_nat v) eqn:Ht; [|discriminate].
    inversion Hy'; subst. by eapply list_elem_of_lookup_2.
  - intros i Hi Hne. destruct (Hrow0 i Hi) as (v & Hv & Hr0).
    assert (v ≠ m) as Hvm.
    { intros ->. apply Hne. by eapply get_idx_inj. }
    assert (drop 1 row' !! i = Some v) as Hd.
    { rewrite lookup_drop. apply Hk; [done | by left]. }
    destruct (Hall i v Hd) as (y & Hy & Hi').
    apply get_tok_get_idx in Hv. congruence.
Qed.

Lemma chained_skip_draws `{Env} addr P mid : ∀ c a2 p2 e2 c2 c2' post c',
  chained addr P c (mid ++ EvDecoder a2 p2 e2 c2 c2' :: post) c' →
  decoder_calls (kind_of <$> mid) = 0 →
  a2 = addr ∧ c2 = c.
Proof.
  induction mid as [|e mid IH]; intros c a2 p2 e2 c2 c2' post c' Hch Hd; simpl in *.
  - by inversion Hch; subst.
  - inversion Hch; subst; [discriminate|]. eapply IH; [done|]. exact Hd.
Qed.

(** In a chain, a decoder invocation finds the dict exactly as the
    previous decoder invocation left it. *)
Lemma chained_adjacent `{Env} addr P pre : ∀ c a1 p1 e1 c1 c1' mid a2 p2 e2 c2 c2' post c',
  chained addr P c
    (pre ++ EvDecoder a1 p1 e1 c1 c1' :: mid ++ EvDecoder a2 p2 e2 c2 c2' :: post) c' →
  decoder_calls (kind_of <$> mid) = 0 →
  a1 = addr ∧ a2 = addr ∧ c2 = c1'.
Proof.
  induction pre as [|e pre IH]; intros c a1 p1 e1 c1 c1' mid a2 p2 e2 c2 c2' post c' Hch Hd;
    simpl in *.
  - inversion Hch; subst.
    match goal with
    | Hrest : chained _ _ _ (mid ++ _) _ |- _ =>
        destruct (chained_skip_draws _ _ _ _ _ _ _ _ _ _ _ Hrest Hd) as [-> ->]
    end.
    done.
  - inversion Hch; subst; eapply IH; eauto.
Qed.

(** * The claims *)

(** C1 (as amended).  For each of the three strategies: in a call that
    returns, every symbol of the partial sequence other than ['<mask>']
    stands at its own position in every returned sequence, which spells
    exactly L vocabulary symbols; the decode loop has not overwritten
    it. *)
Theorem fixed_symbols_preserved `{Env} (s : strategy) (self : Model) (a : Args)
    (st st' : State) (outs : list string) (p : list string) (i : nat) (c : string) :
  run s self a st = (Ok outs, st') →
  partial_seq a = Some p → p !! i = Some c → c ≠ "<mask>" →
  ∀ out, out ∈ outs →
    ∃ syms, out = join syms ∧ length syms = length (coords a) ∧
            Forall (λ y, y ∈ all_toks (dictionary self)) syms ∧
            syms !! i = Some c.
Proof.
  intros Hr Hp Hi Hc out Hout.
  apply run_ok in Hr
    as (bc & cf & pm & m & row0 & all & evs & _ & Hinit & _ & _ & Hgood & _).
  rewrite Forall_forall in Hgood.
  destruct (good_output_fixed _ _ _ _ _ _ Hinit (Hgood out Hout))
    as (syms & -> & Hlen & Hvoc & Hfix).
  exists syms. split_and!; try done.
  apply init_tokens_ok in Hinit as (Hle & _). rewrite Hp in Hle. simpl in Hle.
  assert (symbol_at (partial_seq a) i = c) as Hs by (by rewrite Hp; simpl; rewrite Hi).
  rewrite <- Hs. apply Hfix; [|by rewrite Hs].
  apply lookup_lt_Some in Hi. lia.
Qed.

(** C6.  In a call that returns, each decode loop invokes the decoder
    exactly L times; in [sample] and [sample_batch] the trace after the
    encoder is, per loop and for i = 1..L in order, the decoder on the
    first i columns followed by one multinomial draw exactly when the
    initial buffer holds the mask index at position i: a fixed position
    has its decoder step and no draw. *)
Theorem decoder_step_at_every_position `{Env} (s : strategy) (self : Model) (a : Args)
    (st st' : State) (outs : list string) :
  run s self a st = (Ok outs, st') →
  ∃ m row0 e evs,
    init_tokens (dictionary self) (length (coords a)) (partial_seq a) = Ok (m, [row0]) ∧
    trace st' = (trace st ++ e :: evs)%list ∧ kind_of e = KEnc ∧
    decoder_calls (kind_of <$> evs) = decode_loops s a * length (coords a) ∧
    (s ≠ SampleBatch2 →
     kind_of <$> evs =
       mjoin (replicate (decode_loops s a)
                (loop_kinds m row0 (seq 1 (length (coords a)))))).
Proof.
  intros Hr.
  apply run_ok in Hr
    as (bc & cf & pm & m & row0 & all & evs & _ & Hinit & _ & _ & _ & Htr & Hd & Hk).
  by exists m, row0, (EvEncoder bc pm cf), evs.
Qed.

(** C7.  For each of the three strategies, once the batch conversion and
    the initialisation of the token buffer have succeeded (nothing else
    precedes the encoder call), and whatever the outcome of the call: the
    trace entries the call adds are one encoder invocation, followed by
    decoder invocations and draws only, and every decoder invocation is
    handed an encoder output derived from the result of that one
    encoder invocation. *)
Theorem encoder_invoked_once `{Env} (s : strategy) (self : Model) (a : Args)
    (st : State) (bc cf pm : Tn) (m : Z) (t0 : list (list Z)) :
  batch_converter (dictionary self) (batch_of s a) (device a) = Ok (bc, cf, pm) →
  init_tokens (dictionary self) (length (coords a)) (partial_seq a) = Ok (m, t0) →
  ∃ rest,
    trace (run s self a st).2 = (trace st ++ EvEncoder bc pm cf :: rest)%list ∧
    encoder_calls (kind_of <$> (EvEncoder bc pm cf :: rest)) = 1 ∧
    Forall (λ e, match e with
                 | EvDecoder _ _ enc _ _ =>
                     ∃ all, encoder self bc pm cf = Ok all ∧ derived_from s all enc
                 | EvMultinomial _ => True
                 | EvEncoder _ _ _ => False
                 end) rest.
Proof.
  intros Hbc Hinit.
  destruct (run_any self s a st)
    as [[_ [[e He]|[e He]]]|(bc' & cf' & pm' & c' & evs & Hbc' & Htr & _ & Hch)];
    [congruence | congruence |].
  assert (bc' = bc ∧ cf' = cf ∧ pm' = pm) as (-> & -> & ->).
  { rewrite Hbc in Hbc'. by inversion Hbc'. }
  exists evs. split_and!; [done| |].
  - rewrite fmap_cons. change (?k :: ?ks) with ([k] ++ ks)%list.
    unfold encoder_calls. rewrite List.filter_app, length_app.
    apply chained_no_encoder in Hch. unfold encoder_calls in Hch. by rewrite Hch.
  - eapply Forall_impl; [by eapply chained_decoder_calls|].
    intros ev Hev. destruct ev as [|addr' prev enc0 ci co|]; [done| |done].
    by destruct Hev as [_ Hev].
Qed.

(** C3.  Whatever the outcome of a call of [sample_batch]: unless it
    failed before the dict was created, it has allocated exactly one dict,
    and every decoder invocation, of every sample, was handed that dict;
    the first found it empty and each later one found exactly what the
    previous invocation left, also from the last step of one sample to
    the first step of the next.  A call that returns made
    num_samples * L such invocations. *)
Theorem sample_batch_shares_one_cache `{Env} (self : Model) (a : Args) (st : State) :
  (sample_batch self a st).2 = st ∨
  ∃ bc cf pm evs c',
    trace (sample_batch self a st).2 = (trace st ++ EvEncoder bc pm cf :: evs)%list ∧
    store (sample_batch self a st).2 = (store st ++ [c'])%list ∧
    chained (length (store st)) (λ _, True) ∅ evs c' ∧
    (∀ pre a1 p1 e1 c1 c1' mid a2 p2 e2 c2 c2' post,
       evs = (pre ++ EvDecoder a1 p1 e1 c1 c1' :: mid
                  ++ EvDecoder a2 p2 e2 c2 c2' :: post)%list →
       decoder_calls (kind_of <$> mid) = 0 →
       a1 = length (store st) ∧ a2 = length (store st) ∧ c2 = c1') ∧
    (∀ outs, (sample_batch self a st).1 = Ok outs →
       decoder_calls (kind_of <$> evs) = num_samples a * length (coords a)).
Proof.
  destruct (sample_batch_any self a st)
    as [[Heq _]|(bc & cf & pm & c' & evs & _ & Htr & Hst & Hch)]; [by left|].
  right. exists bc, cf, pm, evs, c'. split_and!; [done|done| | |].
  - eapply chained_mono; [|done]. done.
  - intros pre a1 p1 e1 c1 c1' mid a2 p2 e2 c2 c2' post -> Hmid.
    by eapply chained_adjacent.
  - intros outs Hout.
    destruct (sample_batch self a st) as [r st'] eqn:Hr. simpl in *. subst r.
    apply sample_batch_ok in Hr
      as (? & ? & ? & m & row0 & ? & evs' & _ & _ & _ & _ & _ & Htr' & Hkd).
    rewrite Htr in Htr'. apply app_inv_head in Htr'. inversion Htr'; subst.
    by rewrite Hkd, decoder_calls_mjoin_replicate, decoder_calls_loop_kinds, length_seq.
Qed.

Lemma init_tokens_bad d L p :
  L < length p ∨ (∃ c, c ∈ p ∧ c ∉ all_toks d) →
  ∃ e, init_tokens d L (Some p) = Err e ∧ (e = IndexError ∨ e = KeyError).
Proof.
  intros Hbad. destruct (init_tokens d L (Some p)) as [[m t]|e] eqn:Hi.
  - exfalso. apply init_tokens_ok in Hi as (Hle & _ & cath & row0 & _ & _ & _ & _ & Hall).
    simpl in Hle. destruct Hbad as [?|(c & Hc & Hnot)]; [lia|].
    apply list_elem_of_lookup in Hc as [i Hi].
    destruct (Hall i) as (v & Hv & _); [apply lookup_lt_Some in Hi; lia|].
    simpl in Hv. rewrite Hi in Hv. simpl in Hv.
    rewrite get_idx_unknown in Hv by done. discriminate.
  - exists e. split; [done|]. by eapply init_tokens_err.
Qed.

Lemma run_init_err `{Env} s self a st bc cf pm e :
  batch_converter (dictionary self) (batch_of s a) (device a) = Ok (bc, cf, pm) →
  init_tokens (dictionary self) (length (coords a)) (partial_seq a) = Err e →
  run s self a st = (Err e, st).
Proof.
  intros Hbc Hi. destruct s; unfold run, batch_of in *.
  - assert (sample self a st = (Err e, st)) as Hs.
    { unfold sample. cbv zeta.
      erewrite lift_bind_ok by done. cbv beta iota.
      by erewrite lift_bind_err by done. }
    unfold bind. by rewrite Hs.
  - unfold sample_batch. cbv zeta.
    erewrite lift_bind_ok by done. cbv beta iota.
      by erewrite lift_bind_err by done.
  - unfold sample_batch2. cbv zeta.
    erewrite lift_bind_ok by done. cbv beta iota.
      by erewrite lift_bind_err by done.
Qed.

(** C8.  For each strategy, once the batch conversion has succeeded: if
    the partial sequence is longer than L or holds a symbol the
    vocabulary does not know, the call fails with an IndexError or a
    lookup error while the token buffer is initialised; neither the
    encoder nor the decoder has been invoked and no dict was created. *)
Theorem bad_partial_seq_fails_at_init `{Env} (s : strategy) (self : Model) (a : Args)
    (st : State) (p : list string) (bc cf pm : Tn) :
  batch_converter (dictionary self) (batch_of s a) (device a) = Ok (bc, cf, pm) →
  partial_seq a = Some p →
  length (coords a) < length p ∨ (∃ c, c ∈ p ∧ c ∉ all_toks (dictionary self)) →
  ∃ e, run s self a st = (Err e, st) ∧ (e = IndexError ∨ e = KeyError).
Proof.
  intros Hbc Hp Hbad.
  destruct (init_tokens_bad (dictionary self) _ _ Hbad) as (e & He & Hcls).
  exists e. split; [|done]. eapply run_init_err; [done|]. by rewrite Hp.
Qed.

(** C9.  Without a device, [sample_batch] with num_samples >= 1 never
    returns: it raises before any decoder invocation, and when the batch
    conversion, the initialisation and the encoder have succeeded the
    error is the unbound local [all_sampled_tokens], raised right after
    the encoder call. *)
Theorem sample_batch_needs_device `{Env} (self : Model) (a : Args) (st : State) :
  device a = None → 1 ≤ num_samples a →
  ∃ e evs,
    (sample_batch self a st).1 = Err e ∧
    trace (sample_batch self a st).2 = (trace st ++ evs)%list ∧
    decoder_calls (kind_of <$> evs) = 0 ∧
    ∀ bc cf pm m t0 all,
      batch_converter (dictionary self)
        (replicate (num_samples a) (coords a, confidence a)) None = Ok (bc, cf, pm) →
      init_tokens (dictionary self) (length (coords a)) (partial_seq a) = Ok (m, t0) →
      encoder self bc pm cf = Ok all →
      e = UnboundLocalError ∧ evs = [EvEncoder bc pm cf].
Proof.
  intros Hdev Hn. unfold sample_batch. cbv zeta. rewrite Hdev.
  destruct (batch_converter _ _ None) as [[[bc cf] pm]|e] eqn:Hbc.
  2:{ erewrite lift_bind_err by done. exists e, []. rewrite app_nil_r.
      split_and!; [done|done|done|]. intros; congruence. }
  erewrite lift_bind_ok by done. cbv beta iota.
  destruct (init_tokens _ _ _) as [[m t0]|e] eqn:Hi.
  2:{ erewrite lift_bind_err by done. exists e, []. rewrite app_nil_r.
      split_and!; [done|done|done|]. intros; congruence. }
  erewrite lift_bind_ok by done. cbv beta iota.
  unfold bind at 1. unfold new_dict. unfold bind at 1. unfold call_encoder.
  destruct (encoder self bc pm cf) as [all|e] eqn:Henc.
  - destruct (num_samples a) as [|n]; [lia|].
    exists UnboundLocalError, [EvEncoder bc pm cf]. split_and!; [done|done|done|].
    intros ? ? ? ? ? ? Hbc' _ _. by inversion Hbc'.
  - exists e, [EvEncoder bc pm cf]. split_and!; [done|done|done|].
    intros ? ? ? ? ? ? Hbc' _ Henc'. inversion Hbc'; subst. congruence.
Qed.


Lemma bind_extends `{Env} {A B} addr P (m : M A) (k : A → M B) st :
  (∀ a, M_threads addr P (k a)) →
  is_Some (store (m st).2 !! addr) →
  ∃ evs, trace (bind m k st).2 = (trace (m st).2 ++ evs)%list.
Proof.
  intros Hk Hst. unfold bind. destruct (m st) as [[a|e] st1]; simpl in *.
  - destruct (Hk a st1 Hst) as (_ & _ & evs & _ & _ & Ht & _). eauto.
  - exists []. by rewrite app_nil_r.
Qed.

Lemma call_decoder_first `{Env} self prev enc addr st c :
  store st !! addr = Some c →
  ∃ c', trace (call_decoder self prev enc addr st).2
          = (trace st ++ [EvDecoder addr prev enc c c'])%list ∧
        is_Some (store (call_decoder self prev enc addr st).2 !! addr) ∧
        c' = match decoder self prev enc c with Ok (_, c1) => c1 | Err _ => c end.
Proof.
  intros Hc. unfold call_decoder. rewrite Hc.
  destruct (decoder self prev enc c) as [[lg c1]|e]; simpl.
  - exists c1. split_and!; [done| |done]. exists c1.
    apply list_lookup_insert_eq. by eapply lookup_lt_Some.
  - exists c. split_and!; [done| |done]. by exists c.
Qed.

(** C4 (as amended).  The temperature is not validated.  In [sample],
    for L >= 1 and once the batch conversion, the initialisation and the
    encoder have succeeded, what follows the encoder call is the decoder
    invocation of step 1, on the start token alone and with the empty
    incremental state, and this for every temperature, zero and negative
    ones included: a failure owed to the temperature can only come
    after it. *)
Theorem decoder_invoked_before_temperature_is_used `{Env} (self : Model) (a : Args)
    (st : State) (bc cf pm : Tn) (m : Z) (t0 : list (list Z)) (all : EncOut) :
  1 ≤ length (coords a) →
  batch_converter (dictionary self) [(coords a, confidence a)] (device a)
    = Ok (bc, cf, pm) →
  init_tokens (dictionary self) (length (coords a)) (partial_seq a) = Ok (m, t0) →
  encoder self bc pm cf = Ok all →
  ∃ c', ∀ T : Q, ∃ evs,
    trace (sample self (with_temperature a T) st).2 =
    (trace st ++ EvEncoder bc pm cf
       :: EvDecoder (length (store st)) (prefix_cols 1 t0) all ∅ c' :: evs)%list.
Proof.
  intros HL Hbc Hinit Henc.
  exists (match decoder self (prefix_cols 1 t0) all ∅ with
          | Ok (_, c1) => c1
          | Err _ => ∅
          end).
  intros T. unfold sample. cbv zeta. simpl.
  erewrite lift_bind_ok by done. cbv beta iota.
  erewrite lift_bind_ok by done. cbv beta iota.
  unfold bind at 1. unfold new_dict. unfold bind at 1. unfold call_encoder.
  rewrite Henc. cbn [rng store trace].
  destruct (length (coords a)) as [|n] eqn:HLn; [lia|].
  set (addr := length (store st)).
  set (st4 := mkState _ (rng st) (store st ++ [∅]) (trace st ++ [EvEncoder bc pm cf])).
  assert (store st4 !! addr = Some ∅) as Hnew.
  { subst st4 addr. simpl. rewrite lookup_app_r by lia. by rewrite Nat.sub_diag. }
  set (step := sample_step self m all addr T).
  assert (∀ i x, M_threads addr (λ e, e = all) (step i x)) as Hstep.
  { intros. apply M_threads_sample_step. }
  destruct (call_decoder_first self (prefix_cols 1 t0) all addr st4 ∅ Hnew)
    as (c' & Htr0 & Hst0 & ->).
  match goal with
  | |- context [bind ?mm ?k st4] =>
      destruct (bind_extends addr (λ e, e = all) mm k st4) as (evs3 & Htr3)
  end.
  { intros t'. apply M_threads_bind; [apply M_threads_lift|].
    intros. apply M_threads_ret. }
  { eapply threads_is_Some. apply M_threads_for_each; [exact Hstep|by eexists]. }
  rewrite Htr3. clear Htr3.
  change (for_each (seq 1 (S n)) step t0) with
    (bind (step 1 t0) (λ x', for_each (seq 2 n) step x')).
  match goal with
  | |- context [bind ?mm ?k st4] =>
      destruct (bind_extends addr (λ e, e = all) mm k st4) as (evs2 & Htr2)
  end.
  { intros t'. by apply M_threads_for_each. }
  { eapply threads_is_Some. apply Hstep. by eexists. }
  rewrite Htr2. clear Htr2.
  unfold step at 1, sample_step.
  match goal with
  | |- context [bind ?mm ?k st4] =>
      destruct (bind_extends addr (λ e, e = all) mm k st4) as (evs1 & Htr1)
  end.
  { intros lg.
    apply M_threads_bind; [apply M_threads_lift|]. intros lg0 _ _ _.
    apply M_threads_bind; [apply M_threads_lift|]. intros cur _ _ _.
    case_bool_decide; [|apply M_threads_ret].
    apply M_threads_bind; [apply M_threads_multinomial|]. intros drawn _ _ _.
    apply M_threads_lift. }
  { exact Hst0. }
  rewrite Htr1, Htr0. clear Htr1.
  exists (evs1 ++ evs2 ++ evs3)%list. subst st4. simpl.
  by rewrite <- !app_assoc.
Qed.

(** ** Calls that return *)

Lemma init_tokens_total d L ps :
  "<mask>" ∈ all_toks d → "<cath>" ∈ all_toks d →
  (∀ p, ps = Some p → length p ≤ L ∧ ∀ c, c ∈ p → c ∈ all_toks d) →
  ∃ m row0, init_tokens d L ps = Ok (m, [row0]) ∧
            length row0 = S L ∧ Forall (in_vocab d) row0.
Proof.
  intros Hmask Hcath Hps.
  assert (length (default [] ps) ≤ L) as Hlen.
  { destruct ps as [p|]; simpl; [by apply Hps | lia]. }
  destruct (get_idx_known d _ Hmask) as [m Hm].
  destruct (get_idx_known d _ Hcath) as [cath Hc].
  destruct (rmapM_total (λ i, get_idx d (symbol_at ps i)) (seq 0 L)) as [vals Hvals].
  { intros i _. apply get_idx_known. destruct ps as [p|]; simpl; [|done].
    destruct (p !! i) as [c|] eqn:Hi; simpl; [|done].
    eapply Hps; [done|]. by eapply list_elem_of_lookup_2. }
  exists m, (cath :: vals). rewrite init_tokens_eq by done.
  unfold init_tokens_spec. rewrite Hm, Hc. simpl. rewrite Hvals. simpl.
  apply rmapM_ok in Hvals as [Hl Hall]. rewrite length_seq in Hl.
  split_and!; [done|simpl; lia|].
  constructor; [by eapply get_idx_range|].
  apply Forall_forall. intros v Hv. apply list_elem_of_lookup in Hv as [i Hi].
  destruct (Hall i i) as (y & Hy & Hi').
  { apply lookup_seq. split; [done|]. apply lookup_lt_Some in Hi. lia. }
  assert (y = v) as -> by congruence. by eapply get_idx_range.
Qed.

Lemma rmapM_get_tok_total d row :
  Forall (in_vocab d) row → ∃ syms, rmapM (get_tok d) row = Ok syms.
Proof.
  intros Hrow. apply rmapM_total. intros v Hv.
  rewrite Forall_forall in Hrow. by apply get_tok_total, Hrow.
Qed.

Section Total.
Context `{Env}.
Variables (self : Model) (m : Z) (enc : EncOut) (addr : nat) (temp : Q).

(** [Inv] holds of the incremental states the decoder is handed. *)
Variable Inv : Cache → Prop.
Hypothesis Hdec : ∀ prev c,
  Forall (Forall (in_vocab (dictionary self))) prev → Inv c →
  ∃ lg c',
    decoder self prev enc c = Ok (lg, c') ∧
    t3_d0 lg = length prev ∧
    t3_d1 lg = length (all_toks (dictionary self)) ∧
    t3_d2 lg = 1 ∧
    Inv c'.
Hypothesis Hdraw : ∀ prev c lg c' (g : Rng),
  Forall (Forall (in_vocab (dictionary self))) prev →
  Inv c → decoder self prev enc c = Ok (lg, c') →
  ∃ k g',
    draw (softmax_vec ((λ b, fdiv (t3_el lg 0 b 0) temp) <$> seq 0 (t3_d1 lg))) g
      = (Ok k, g') ∧
    in_vocab (dictionary self) k.

Lemma sample_step_total i row st :
  i < length row → Forall (in_vocab (dictionary self)) row →
  (∃ c, store st !! addr = Some c ∧ Inv c) →
  ∃ row' st',
    sample_step self m enc addr temp i [row] st = (Ok [row'], st') ∧
    length row' = length row ∧ Forall (in_vocab (dictionary self)) row' ∧
    (∃ c, store st' !! addr = Some c ∧ Inv c).
Proof.
  intros Hi Hrow (c & Hc & HI).
  assert (Forall (Forall (in_vocab (dictionary self))) (prefix_cols i [row])) as Hprev.
  { constructor; [|done]. by apply Forall_take. }
  destruct (Hdec (prefix_cols i [row]) c Hprev HI)
    as (lg & c' & Hd & Hd0 & Hd1 & Hd2 & HI').
  destruct (lookup_lt_is_Some_2 row i Hi) as [cur Hcur].
  unfold sample_step, bind, call_decoder. rewrite Hc, Hd.
  unfold lift at 1, t3_index0. rewrite bool_decide_true by (rewrite Hd0; simpl; lia).
  unfold lift at 1, get2. simpl. rewrite Hcur.
  assert (∃ c0, <[addr := c']> (store st) !! addr = Some c0 ∧ Inv c0) as Hst'.
  { exists c'. split; [|done]. apply list_lookup_insert_eq. by eapply lookup_lt_Some. }
  case_bool_decide as Hm.
  - unfold multinomial, t2_softmax. simpl. rewrite Hd2. simpl.
    destruct (Hdraw _ _ _ _ (rng st) Hprev HI Hd) as (k & g' & Hdraw' & Hk).
    rewrite Hdraw'. unfold lift, set_col, broadcast. simpl.
    rewrite bool_decide_true by done. simpl.
    eexists _, _. split_and!; [done| | |done].
    + by rewrite length_insert.
    + apply Forall_insert; done.
  - unfold ret. eexists _, _. split_and!; done.
Qed.

Lemma sample_loop_total l : ∀ row st,
  Forall (λ i, i < length row) l → Forall (in_vocab (dictionary self)) row →
  (∃ c, store st !! addr = Some c ∧ Inv c) →
  ∃ row' st',
    for_each l (sample_step self m enc addr temp) [row] st = (Ok [row'], st') ∧
    length row' = length row ∧ Forall (in_vocab (dictionary self)) row' ∧
    (∃ c, store st' !! addr = Some c ∧ Inv c).
Proof.
  induction l as [|i l IH]; intros row st Hl Hrow Hst; simpl.
  - by exists row, st.
  - inversion Hl as [|? ? Hi Hl']; subst.
    destruct (sample_step_total i row st Hi Hrow Hst)
      as (row1 & st1 & Hstep & Hlen1 & Hrow1 & Hst1).
    destruct (IH row1 st1) as (row' & st' & Hloop & Hlen' & Hrow' & Hst');
      [|done|done|].
    { eapply Forall_impl; [done|]. simpl. intros; lia. }
    exists row', st'. unfold bind. rewrite Hstep. split_and!; [done|lia|done|done].
Qed.

End Total.

(** The decode loop under the collaborators' full contracts, whatever
    the incremental state. *)
Lemma sample_loop_total_contracts `{Env} self m enc addr temp l row st :
  Contracts self → (0 < temp)%Q →
  Forall (λ i, i < length row) l → Forall (in_vocab (dictionary self)) row →
  is_Some (store st !! addr) →
  ∃ row' st',
    for_each l (sample_step self m enc addr temp) [row] st = (Ok [row'], st') ∧
    length row' = length row ∧ Forall (in_vocab (dictionary self)) row' ∧
    is_Some (store st' !! addr).
Proof.
  intros HC HT Hl Hrow [c Hc].
  destruct (sample_loop_total self m enc addr temp (λ _, True)) with (l := l)
    (row := row) (st := st) as (row' & st' & Hloop & Hlen & Hrow' & c' & Hc' & _).
  - intros prev c0 _ _.
    destruct (decoder_answers self HC prev enc c0) as (lg & c1 & ? & ? & ? & ?).
    exists lg, c1. done.
  - intros prev c0 lg c1 g _ _ Hd.
    destruct (decoder_answers self HC prev enc c0) as (lg2 & c2 & Hd2 & _ & Hd1 & _).
    assert (lg2 = lg) as -> by congruence.
    destruct (draw_answers self HC temp ((λ b, t3_el lg 0 b 0) <$> seq 0 (t3_d1 lg)) g HT)
      as (k & g' & Hdraw & Hk).
    { by rewrite length_fmap, length_seq. }
    rewrite <- list_fmap_compose in Hdraw. exists k, g'. done.
  - done.
  - done.
  - eauto.
  - exists row', st'. by split_and!.
Qed.

(** The decode loop of a call whose collaborators answer. *)
Lemma sample_loop_total_answers `{Env} self m enc addr temp l row st :
  Answers self temp enc → (0 < temp)%Q →
  Forall (λ i, i < length row) l → Forall (in_vocab (dictionary self)) row →
  store st !! addr = Some ∅ →
  ∃ row' st',
    for_each l (sample_step self m enc addr temp) [row] st = (Ok [row'], st') ∧
    length row' = length row ∧ Forall (in_vocab (dictionary self)) row'.
Proof.
  intros HA HT Hl Hrow Hc.
  destruct (sample_loop_total self m enc addr temp (handed self enc)) with (l := l)
    (row := row) (st := st) as (row' & st' & Hloop & Hlen & Hrow' & _).
  - intros prev c0 Hprev Hh.
    destruct (ans_decoder self temp enc HA prev c0 Hprev Hh) as (lg & c1 & Hd & ? & ? & ?).
    exists lg, c1. split_and!; try done. by eapply handed_next.
  - intros prev c0 lg c1 g Hprev Hh Hd. by eapply (ans_draw self temp enc HA).
  - done.
  - done.
  - exists ∅. split; [done | constructor].
  - by exists row', st'.
Qed.

Lemma string_length_app s1 s2 :
  String.length (s1 +:+ s2) = String.length s1 + String.length s2.
Proof. induction s1 as [|ch s1 IH]; simpl; [done|]. by rewrite IH. Qed.

(** The characters of a concatenation are those of its pieces. *)
Lemma concat_length syms :
  String.length (String.concat "" syms) = list_sum (String.length <$> syms).
Proof.
  induction syms as [|y syms IH]; [done|].
  destruct syms as [|y' syms'].
  - simpl. lia.
  - change (String.concat "" (y :: y' :: syms'))
      with (y +:+ "" +:+ String.concat "" (y' :: syms')).
    rewrite !string_length_app, IH. simpl. lia.
Qed.

Lemma list_sum_ones (l : list nat) : Forall (λ n, n = 1) l → list_sum l = length l.
Proof. induction 1 as [|n l -> _ IH]; simpl; [done | by rewrite IH]. Qed.

Lemma join_length syms :
  Forall (λ y, String.length y = 1) syms → String.length (join syms) = length syms.
Proof.
  intros Hone. unfold join. rewrite concat_length, list_sum_ones.
  - by rewrite length_fmap.
  - by apply Forall_fmap.
Qed.

(** C2 (as amended).  With a temperature T > 0, a successful batch
    conversion and encoder call, a decoder and a generator that answer at
    that temperature, and a partial sequence (if any) of known symbols
    that is not longer than L, [sample] returns, and what it returns is the concatenation of exactly
    L vocabulary symbols, those of positions 1..L of the final token
    buffer, which keeps every caller-fixed entry of the initial one.  Its
    number of characters is the sum of the lengths of these symbols, so
    L when each of them is a single character. *)
Theorem sample_returns_L_symbols `{Env} (self : Model) (a : Args) (st : State)
    (bc cf pm : Tn) (all : EncOut) :
  (0 < temperature a)%Q →
  batch_converter (dictionary self) [(coords a, confidence a)] (device a)
    = Ok (bc, cf, pm) →
  encoder self bc pm cf = Ok all →
  Answers self (temperature a) all →
  (∀ p, partial_seq a = Some p →
        length p ≤ length (coords a) ∧ ∀ c, c ∈ p → c ∈ all_toks (dictionary self)) →
  ∃ out st' m row0 row' syms,
    sample self a st = (Ok out, st') ∧
    init_tokens (dictionary self) (length (coords a)) (partial_seq a) = Ok (m, [row0]) ∧
    keeps_except m (seq 1 (length (coords a))) row0 row' ∧
    rmapM (get_tok (dictionary self)) (drop 1 row') = Ok syms ∧
    out = String.concat "" syms ∧
    length syms = length (coords a) ∧
    Forall (λ y, y ∈ all_toks (dictionary self)) syms ∧
    String.length out = list_sum (String.length <$> syms) ∧
    (Forall (λ y, String.length y = 1) syms →
     String.length out = length (coords a)).
Proof.
  intros HT Hbc Henc HA Hps.
  destruct (init_tokens_total (dictionary self) (length (coords a)) (partial_seq a))
    as (m & row0 & Hinit & Hlen0 & Hrow0);
    [apply HA | apply HA | done |].
  set (st4 := mkState _ (rng st) (store st ++ [∅]) (trace st ++ [EvEncoder bc pm cf])).
  destruct (sample_loop_total_answers self m all (length (store st)) (temperature a)
              (seq 1 (length (coords a))) row0 st4 HA HT)
    as (row' & st5 & Hloop & Hlen' & Hrow').
  { apply Forall_forall. intros i Hi%elem_of_seq. lia. }
  { done. }
  { subst st4. simpl. rewrite lookup_app_r by lia. by rewrite Nat.sub_diag. }
  destruct (rmapM_get_tok_total (dictionary self) (drop 1 row')) as [syms Hsyms].
  { by apply Forall_drop. }
  assert (sample self a st = (Ok (join syms), st5)) as Hrun.
  { unfold sample. cbv zeta.
    erewrite lift_bind_ok by done. cbv beta iota.
    erewrite lift_bind_ok by done. cbv beta iota.
    unfold bind at 1. unfold new_dict. unfold bind at 1. unfold call_encoder.
    rewrite Henc. cbn [rng store trace]. fold st4.
    unfold bind at 1. rewrite Hloop.
    unfold bind, lift, decode_symbols, row_tail. simpl. by rewrite Hsyms. }
  apply (sample_loop_ok _ _ _ _ _ _ (NoDup_seq _ _)) with (row := row0) in Hloop
    as (row2 & evs & Hrow2 & _ & Hkeep & _ & _); [|done].
  inversion Hrow2; subst row2. clear Hrow2.
  pose proof (rmapM_ok _ _ _ Hsyms) as [Hls Hall].
  rewrite length_drop, Hlen', Hlen0 in Hls.
  exists (join syms), st5, m, row0, row', syms.
  split_and!; [done|done|done|done|done|lia| | |].
  - apply Forall_forall. intros y Hy.
    apply list_elem_of_lookup in Hy as [i Hi].
    destruct (lookup_lt_is_Some_2 (drop 1 row') i) as [v Hv].
    { rewrite length_drop, Hlen', Hlen0. apply lookup_lt_Some in Hi. lia. }
    destruct (Hall i v Hv) as (y' & Hy' & Hi').
    assert (y' = y) as -> by congruence.
    unfold get_tok in Hy'. case_bool_decide; [|discriminate].
    destruct (all_toks (dictionary self) !! Z.to_nat v) as [t|] eqn:Ht; [|discriminate].
    inversion Hy'; subst t. by eapply list_elem_of_lookup_2.
  - apply concat_length.
  - intros Hone. rewrite join_length by done. lia.
Qed.

(** ** The single-sequence step against the vectorized step *)

(** On one and the same decoder output, at a position that holds the
    mask index, the step of [sample] and the step of [sample_batch2] can
    both complete only when the last two axes of the logits have size 1:
    [sample] draws over axis 1 and needs axis 2 to be a singleton, while
    [sample_batch2], which transposes without indexing the batch first,
    draws over axis 2 and needs axis 1 to be a singleton. *)
Lemma masked_step_shapes `{Env} self m enc addr temp i row st c lg c1 :
  store st !! addr = Some c →
  decoder self (prefix_cols i [row]) enc c = Ok (lg, c1) →
  row !! i = Some m →
  (∃ t1 s1, sample_step self m enc addr temp i [row] st = (Ok t1, s1)) →
  (∃ t2 s2, batch2_step self m enc addr temp i [row] st = (Ok t2, s2)) →
  t3_d1 lg = 1 ∧ t3_d2 lg = 1.
Proof.
  intros Hc Hdec Hrow (t1 & s1 & H1) (t2 & s2 & H2).
  assert (0 < t3_d0 lg ∧ t3_d2 lg = 1) as [Hd0 Hd2].
  { unfold sample_step in H1.
    apply bind_ok_inv in H1 as (lg' & st1 & Hcall & H1).
    unfold call_decoder in Hcall. rewrite Hc, Hdec in Hcall.
    inversion Hcall; subst lg' st1. clear Hcall.
    apply bind_ok_inv in H1 as (lg0 & st2 & Hidx & H1).
    apply lift_inv in Hidx as [Hidx ->]. symmetry in Hidx.
    unfold t3_index0 in Hidx. case_bool_decide as Hpos; [|discriminate].
    inversion Hidx; subst lg0. clear Hidx.
    apply bind_ok_inv in H1 as (cur & st3 & Hget & H1).
    apply lift_inv in Hget as [Hget ->]. unfold get2 in Hget. simpl in Hget.
    rewrite Hrow in Hget. inversion Hget; subst cur.
    rewrite bool_decide_true in H1 by done.
    apply bind_ok_inv in H1 as (drawn & st4 & Hmul & H1).
    apply multinomial_ok in Hmul as (Hlen & _ & _).
    apply lift_inv in H1 as [Hset _]. symmetry in Hset.
    apply set_col_ok in Hset as (Hsrc & _ & _).
    unfold t2_softmax in Hlen. rewrite length_fmap, length_seq in Hlen.
    simpl in Hlen, Hsrc. split; [done|]. destruct Hsrc; lia. }
  split; [|done].
  unfold batch2_step in H2.
  apply bind_ok_inv in H2 as (lg' & st1 & Hcall & H2).
  unfold call_decoder in Hcall. rewrite Hc, Hdec in Hcall.
  inversion Hcall; subst lg' st1. clear Hcall.
  simpl in H2. destruct (t3_d0 lg) as [|n]; [lia|]. simpl in H2.
  apply bind_ok_inv in H2 as (t' & st2 & Hrow0 & _).
  unfold batch2_row in Hrow0.
  apply bind_ok_inv in Hrow0 as (cell & st3 & Hcell & Hrow0).
  apply lift_inv in Hcell as [Hcell ->]. unfold cell_slice in Hcell. simpl in Hcell.
  rewrite Hrow in Hcell. inversion Hcell; subst cell. clear Hcell.
  apply bind_ok_inv in Hrow0 as (b & st4 & Hb & Hrow0).
  apply lift_inv in Hb as [Hb ->]. simpl in Hb. inversion Hb; subst b. clear Hb.
  rewrite bool_decide_true in Hrow0 by done.
  apply bind_ok_inv in Hrow0 as (pj & st5 & Hpj & Hrow0).
  apply lift_inv in Hpj as [_ ->].
  apply bind_ok_inv in Hrow0 as (printed & st6 & _ & Hrow0).
  apply bind_ok_inv in Hrow0 as (pj' & st7 & Hpj' & Hrow0).
  apply lift_inv in Hpj' as [Hpj' ->]. symmetry in Hpj'.
  unfold p3_slice1 in Hpj'. case_bool_decide; [|discriminate].
  inversion Hpj'; subst pj'. clear Hpj'.
  apply bind_ok_inv in Hrow0 as (drawn & st8 & Hmul & Hrow0).
  apply multinomial_ok in Hmul as (Hlen & _ & _).
  apply lift_inv in Hrow0 as [Hset _]. symmetry in Hset.
  apply set_cell_ok in Hset as [(? & ? & _ & _ & Hsrc & _)|[Hnone _]]; [|discriminate].
  rewrite length_fmap, length_seq in Hlen. simpl in Hlen. lia.
Qed.

(** ** The generator along the trace *)

Section Replay.
Context `{Env}.
















End Replay.

(** ** The draw and the store at a position that holds the mask index *)


Section SampleDraw.
Context `{Env}.
Variables (self : Model) (m : Z) (enc : EncOut) (addr : nat) (temp : Q).



End SampleDraw.


Section MethodDraws.
Context `{Env}.
Variable self : Model.




End MethodDraws.

(** ** The same in [sample_batch2] *)


Section Batch2Draw.
Context `{Env}.
Variables (self : Model) (m : Z) (enc : EncOut) (addr : nat) (temp : Q).





End Batch2Draw.



(** * The claims on the concrete world *)

Section ToyFacts.
Import Toy.

Lemma pair_eta_fst {A B} (x : A * B) (a : A) : x.1 = a → x = (a, x.2).
Proof. destruct x. simpl. by intros ->. Qed.

Lemma toy_contracts : Contracts toy.
Proof.
  split.
  - vm_compute. do 1 right. left.
  - left.
  - intros. eexists. reflexivity.
  - intros. eexists _, _. split_and!; reflexivity.
  - intros T v g _ Hv. simpl in *.
    rewrite list_fmap_id.
    destruct v as [|x v]; [discriminate|].
    destruct g as [|k g].
    + exists 0%Z, []. split; [done | lia].
    + exists (Z.of_nat (k mod length (x :: v))), g. split; [done|].
      rewrite Hv. pose proof (Nat.mod_upper_bound k 5). lia.
Qed.

(** [sample]: three positions, the middle one to be sampled. *)
Lemma fixed_symbols_preserved_witness :
  (run Sample toy (args 3 1 (Some ["A"; "<mask>"; "C"]) 1 None) st0).1 = Ok ["AAC"] ∧
  ∀ out, out ∈ ["AAC"] →
    ∃ syms, out = join syms ∧ length syms = 3 ∧
            Forall (λ y, y ∈ all_toks toy_vocab) syms ∧
            syms !! 2 = Some "C".
Proof.
  split; [vm_compute; reflexivity|].
  apply (fixed_symbols_preserved Sample toy
           (args 3 1 (Some ["A"; "<mask>"; "C"]) 1 None) st0
           (run Sample toy (args 3 1 (Some ["A"; "<mask>"; "C"]) 1 None) st0).2
           ["AAC"] ["A"; "<mask>"; "C"] 2 "C").
  - apply pair_eta_fst. vm_compute. reflexivity.
  - reflexivity.
  - reflexivity.
  - discriminate.
Defined.

(** A supplied ['<mask>'] is not found in the output: [sample] on the
    partial sequence ['<mask>'; 'A'] returns "AA". *)
Lemma mask_symbol_is_overwritten :
  (run Sample toy (args 2 1 (Some ["<mask>"; "A"]) 1 None) st0).1 = Ok ["AA"] ∧
  ¬ preserved_verbatim Sample toy (args 2 1 (Some ["<mask>"; "A"]) 1 None) st0.
Proof.
  split; [vm_compute; reflexivity|].
  intros Hall.
  destruct (Hall ["AA"]
              (run Sample toy (args 2 1 (Some ["<mask>"; "A"]) 1 None) st0).2
              ["<mask>"; "A"] 0 "<mask>") with (out := "AA")
    as (syms & Hjoin & Hlen & Hfirst).
  - apply pair_eta_fst. vm_compute. reflexivity.
  - reflexivity.
  - reflexivity.
  - left.
  - destruct syms as [|y0 [|y1 [|]]]; try discriminate.
    simpl in Hfirst. inversion Hfirst; subst y0. discriminate.
Qed.

Lemma toy_answers (T : Q) (enc : EncOut) : Answers toy T enc.
Proof.
  split.
  - vm_compute. do 1 right. left.
  - left.
  - intros. eexists _, _. split_and!; reflexivity.
  - intros prev c lg c' g _ _ _ Hd. inversion Hd; subst lg c'. simpl.
    destruct g as [|k g].
    + exists 0%Z, []. split; [done | split; simpl; lia].
    + exists (Z.of_nat (k mod 5)), g. split; [done|].
      pose proof (Nat.mod_upper_bound k 5). split; simpl; lia.
Qed.

Lemma sample_returns_L_symbols_witness :
  ∃ out st' m row0 row' syms,
    sample toy (args 3 1 (Some ["A"; "<mask>"]) 1 None) st0 = (Ok out, st') ∧
    init_tokens toy_vocab 3 (Some ["A"; "<mask>"]) = Ok (m, [row0]) ∧
    keeps_except m (seq 1 3) row0 row' ∧
    rmapM (get_tok toy_vocab) (drop 1 row') = Ok syms ∧
    out = String.concat "" syms ∧
    length syms = 3 ∧
    Forall (λ y, y ∈ all_toks toy_vocab) syms ∧
    String.length out = list_sum (String.length <$> syms) ∧
    (Forall (λ y, String.length y = 1) syms → String.length out = 3).
Proof.
  apply (sample_returns_L_symbols toy (args 3 1 (Some ["A"; "<mask>"]) 1 None) st0
           1 1 1 (<["encoder_padding_mask" := EList [1]]>
                    (<["encoder_out" := EList [1]]> ∅))).
  - reflexivity.
  - reflexivity.
  - reflexivity.
  - apply toy_answers.
  - intros p Hp. inversion Hp; subst p. split; [simpl; lia|].
    intros c Hc. vm_compute.
    apply list_elem_of_In in Hc. simpl in Hc.
    destruct Hc as [<-|[<-|[]]]; [do 2 right; left | right; left].
Defined.

(** A drawn symbol need not be a single character.  With T = 1, no
    partial sequence and a generator whose first draw is index 1, [sample]
    on three residues returns ['<mask><cath><cath>']: three vocabulary
    symbols, eighteen characters. *)
Lemma drawn_symbols_can_be_longer :
  (sample toy (args 3 1 None 1 None) (mkState toy_env [6] [] [])).1
    = Ok "<mask><cath><cath>" ∧
  (0 < temperature (args 3 1 None 1 None))%Q ∧
  (∀ enc, Answers toy (temperature (args 3 1 None 1 None)) enc) ∧
  ¬ returns_L_characters toy (args 3 1 None 1 None) (mkState toy_env [6] [] []).
Proof.
  split_and!.
  - vm_compute. reflexivity.
  - reflexivity.
  - apply toy_answers.
  - intros (out & st' & Hs & Hlen).
    apply (f_equal fst) in Hs. vm_compute in Hs. inversion Hs; subst out.
    vm_compute in Hlen. discriminate.
Qed.

Lemma decoder_step_at_every_position_witness :
  ∃ m row0 e evs,
    init_tokens toy_vocab 3 (Some ["A"; "<mask>"; "C"]) = Ok (m, [row0]) ∧
    trace (run Sample toy (args 3 1 (Some ["A"; "<mask>"; "C"]) 1 None) st0).2
      = ([] ++ e :: evs)%list ∧
    kind_of e = KEnc ∧
    decoder_calls (kind_of <$> evs) = 1 * 3 ∧
    (Sample ≠ SampleBatch2 →
     kind_of <$> evs = mjoin (replicate 1 (loop_kinds m row0 (seq 1 3)))).
Proof.
  apply (decoder_step_at_every_position Sample toy
           (args 3 1 (Some ["A"; "<mask>"; "C"]) 1 None) st0
           (run Sample toy (args 3 1 (Some ["A"; "<mask>"; "C"]) 1 None) st0).2
           ["AAC"]).
  apply pair_eta_fst. vm_compute. reflexivity.
Defined.

(** The skeleton of that call: the decoder at 1, 2 and 3, and a single
    draw, at position 2. *)
Example sample_toy_kinds :
  kind_of <$> trace (sample toy (args 3 1 (Some ["A"; "<mask>"; "C"]) 1 None) st0).2
  = [KEnc; KDec 1; KDec 2; KDraw; KDec 3].
Proof. vm_compute. reflexivity. Qed.

(** Two samples of two steps through [sample_batch]: the third decoder
    invocation, the first of the second sample, finds the incremental
    state as the second invocation left it. *)
Example sample_batch_toy_cache :
  omap steps_seen
    (trace (sample_batch toy (args 2 2 None 1 (Some "cpu")) st0).2)
  = [(None, Some 1); (Some 1, Some 2); (Some 2, Some 3); (Some 3, Some 4)].
Proof. vm_compute. reflexivity. Qed.

Lemma encoder_invoked_once_witness :
  ∃ rest,
    trace (run SampleBatch toy (args 2 2 (Some ["A"]) 1 (Some "cpu")) st0).2
      = ([] ++ EvEncoder 2 2 2 :: rest)%list ∧
    encoder_calls (kind_of <$> (EvEncoder 2 2 2 :: rest)) = 1 ∧
    Forall (λ e, match e with
                 | EvDecoder _ _ enc _ _ =>
                     ∃ all, toy_encoder 2 2 2 = Ok all ∧ derived_from SampleBatch all enc
                 | EvMultinomial _ => True
                 | EvEncoder _ _ _ => False
                 end) rest.
Proof.
  apply (encoder_invoked_once SampleBatch toy (args 2 2 (Some ["A"]) 1 (Some "cpu")) st0
           2 2 2 1%Z [[0; 2; 1]%Z]).
  - reflexivity.
  - vm_compute. reflexivity.
Defined.

Lemma bad_partial_seq_fails_at_init_witness :
  ∃ e, run Sample toy (args 3 1 (Some ["A"; "<mask>"; "C"; "D"]) 1 None) st0
         = (Err e, st0) ∧
       (e = IndexError ∨ e = KeyError).
Proof.
  apply (bad_partial_seq_fails_at_init Sample toy
           (args 3 1 (Some ["A"; "<mask>"; "C"; "D"]) 1 None) st0
           ["A"; "<mask>"; "C"; "D"] 1 1 1).
  - reflexivity.
  - reflexivity.
  - left. simpl. lia.
Defined.

Lemma sample_batch_needs_device_witness :
  ∃ e evs,
    (sample_batch toy (args 2 2 None 1 None) st0).1 = Err e ∧
    trace (sample_batch toy (args 2 2 None 1 None) st0).2 = ([] ++ evs)%list ∧
    decoder_calls (kind_of <$> evs) = 0 ∧
    ∀ bc cf pm m t0 all,
      batch_converter toy_vocab (replicate 2 (replicate 2 tt, None)) None
        = Ok (bc, cf, pm) →
      init_tokens toy_vocab 2 None = Ok (m, t0) →
      toy_encoder bc pm cf = Ok all →
      e = UnboundLocalError ∧ evs = [EvEncoder bc pm cf].
Proof.
  apply (sample_batch_needs_device toy (args 2 2 None 1 None) st0).
  - reflexivity.
  - simpl. lia.
Defined.


(** The same call seen from outside: the decoder at 1, 2 and 3, and at
    step 2 two draws for each of the two rows. *)
Example sample_batch2_toy_kinds :
  kind_of <$> trace (sample_batch2 toy_btv
                       (args 3 2 (Some ["A"; "<mask>"; "C"]) 1 (Some "cpu")) st0).2
  = [KEnc; KDec 1; KDec 2; KDraw; KDraw; KDraw; KDraw; KDec 3].
Proof. vm_compute. reflexivity. Qed.

Lemma decoder_invoked_before_temperature_is_used_witness :
  ∃ c', ∀ T : Q, ∃ evs,
    trace (sample toy (with_temperature (args 2 1 None 0 None) T) st0).2 =
    ([] ++ EvEncoder 1 1 1
        :: EvDecoder 0 (prefix_cols 1 [[0; 1; 1]%Z])
             (<["encoder_padding_mask" := EList [1]]>
                (<["encoder_out" := EList [1]]> ∅)) ∅ c' :: evs)%list.
Proof.
  apply (decoder_invoked_before_temperature_is_used toy (args 2 1 None 0 None) st0
           1 1 1 1%Z [[0; 1; 1]%Z]).
  - simpl. lia.
  - reflexivity.
  - vm_compute. reflexivity.
  - reflexivity.
Defined.

(** With temperature -1 the call is not rejected: it returns, after two
    decoder invocations. *)
Lemma negative_temperature_is_not_rejected :
  (temperature (args 2 1 None (-1) None) <= 0)%Q ∧
  ¬ fails_before_decoding Sample toy (args 2 1 None (-1) None) st0.
Proof.
  split.
  - vm_compute. discriminate.
  - intros (e & He & _). vm_compute in He. discriminate.
Qed.

(** C5.  One sample of two positions, same inputs and same generator.
    With logits of shape (B, V, 1), the layout [sample] reads, [sample]
    returns "AC" while [sample_batch2] raises at its first masked
    position (softmax over the singleton axis, V draws, a store of V
    values into one cell); with logits of shape (B, 1, V) it is [sample]
    that raises, and [sample_batch2] returns "CA": it stores the second
    of two draws, the first one being printed. *)
Theorem batch_of_one_differs_from_sample :
  (sample toy (args 2 1 None 1 (Some "cpu")) st0).1 = Ok "AC" ∧
  (sample_batch2 toy (args 2 1 None 1 (Some "cpu")) st0).1 = Err RuntimeError ∧
  (sample toy_btv (args 2 1 None 1 (Some "cpu")) st0).1 = Err RuntimeError ∧
  (sample_batch2 toy_btv (args 2 1 None 1 (Some "cpu")) st0).1 = Ok ["CA"] ∧
  draws (kind_of <$> trace (sample toy (args 2 1 None 1 (Some "cpu")) st0).2) = 2 ∧
  draws (kind_of <$> trace (sample_batch2 toy_btv (args 2 1 None 1 (Some "cpu")) st0).2) = 4.
Proof. vm_compute. repeat split; reflexivity. Qed.

End ToyFacts.

(** * Further properties of the sampling code *)

(** ** Initialisation of the token buffer *)

(** The initialisation succeeds exactly when the two special symbols and
    every supplied symbol are known and the partial sequence is not
    longer than L; the buffer is then one row of L+1 entries: the
    ['<cath>'] index, the index of each supplied symbol at its offset,
    and the mask index at every position the partial sequence does not
    reach. *)
Theorem init_tokens_layout (d : Vocabulary) (L : nat) (ps : option (list string))
    (m : Z) (t : list (list Z)) :
  init_tokens d L ps = Ok (m, t) ↔
  length (default [] ps) ≤ L ∧
  get_idx d "<mask>" = Ok m ∧
  ∃ cath vals,
    get_idx d "<cath>" = Ok cath ∧
    rmapM (get_idx d) (default [] ps) = Ok vals ∧
    t = [cath :: vals ++ replicate (L - length vals) m]%list.
Proof.
  split.
  - intros Hi.
    destruct (init_tokens_ok _ _ _ _ _ Hi) as (Hlen & Hm & _).
    split; [done|]. split; [done|].
    unfold init_tokens in Hi. rewrite Hm in Hi. simpl in Hi.
    destruct (get_idx d "<cath>") as [cath|] eqn:Hc; simpl in Hi; [|discriminate].
    exists cath. destruct ps as [p|]; simpl in *.
    + change [<[0:=cath]> (m :: replicate L m)] with [cath :: replicate L m] in Hi.
      rewrite (write_partial_eq d p 0 (cath :: replicate L m)) in Hi
        by (simpl; rewrite length_replicate; lia).
      destruct (rmapM (get_idx d) p) as [vals|] eqn:Hv; simpl in Hi; [|discriminate].
      exists vals. split; [done|]. split; [done|].
      inversion Hi; subst t. apply rmapM_ok in Hv as [Hlv _].
      simpl. rewrite drop_replicate, Hlv. done.
    + exists []. inversion Hi; subst t. simpl. by rewrite Nat.sub_0_r.
  - intros (Hlen & Hm & cath & vals & Hc & Hv & ->).
    unfold init_tokens. rewrite Hm. simpl. rewrite Hc. simpl.
    destruct ps as [p|]; simpl in *.
    + change [<[0:=cath]> (m :: replicate L m)] with [cath :: replicate L m].
      rewrite (write_partial_eq d p 0 (cath :: replicate L m))
        by (simpl; rewrite length_replicate; lia).
      rewrite Hv. simpl. apply rmapM_ok in Hv as [Hlv _].
      rewrite drop_replicate, Hlv. done.
    + inversion Hv; subst vals. simpl. by rewrite Nat.sub_0_r.
Qed.

Lemma write_partial_class d p : ∀ i row,
  i + 1 ≤ length row →
  ((∃ k c, k ≤ length row - (i + 1) ∧ p !! k = Some c ∧ c ∉ all_toks d) →
   write_partial d p i [row] = Err KeyError) ∧
  (length row - (i + 1) < length p →
   (∀ k c, k ≤ length row - (i + 1) → p !! k = Some c → c ∈ all_toks d) →
   write_partial d p i [row] = Err IndexError).
Proof.
  induction p as [|c p IH]; intros i row Hrow.
  - split.
    + intros (k & c & _ & Hk & _). by destruct k.
    + simpl. lia.
  - simpl. destruct (decide (c ∈ all_toks d)) as [Hc|Hc].
    + destruct (get_idx_known d c Hc) as [v Hv]. rewrite Hv. simpl.
      unfold set2. simpl. case_bool_decide as Hlt; simpl.
      * destruct (IH (S i) (<[i + 1 := v]> row)) as [IHa IHb];
          [rewrite length_insert; lia|].
        rewrite length_insert in IHa, IHb. split.
        -- intros (k & c' & Hk & Hpk & Hnot). apply IHa.
           destruct k as [|k]; simpl in Hpk.
           ++ inversion Hpk; subst. done.
           ++ exists k, c'. split_and!; [lia|done|done].
        -- intros Hlen Hall. apply IHb; [lia|].
           intros k c' Hk Hpk. apply (Hall (S k) c'); [lia | done].
      * split.
        -- intros (k & c' & Hk & Hpk & Hnot).
           assert (k = 0) as -> by lia. simpl in Hpk. inversion Hpk; subst. done.
        -- done.
    + rewrite get_idx_unknown by done. simpl. split; [done|].
      intros _ Hall. destruct Hc. apply (Hall 0 c); [lia | done].
Qed.

(** Which error a bad partial sequence raises.  The symbol is looked up
    before its store is attempted, so with the two special symbols known:
    an unknown symbol among the first L+1 entries gives the lookup error,
    and a sequence longer than L whose first L+1 symbols are all known
    gives the IndexError. *)
Theorem init_tokens_error_class (d : Vocabulary) (L : nat) (p : list string) :
  "<mask>" ∈ all_toks d → "<cath>" ∈ all_toks d →
  ((∃ k c, k ≤ L ∧ p !! k = Some c ∧ c ∉ all_toks d) →
   init_tokens d L (Some p) = Err KeyError) ∧
  (L < length p →
   (∀ k c, k ≤ L → p !! k = Some c → c ∈ all_toks d) →
   init_tokens d L (Some p) = Err IndexError).
Proof.
  intros Hmask Hcath.
  destruct (get_idx_known d _ Hmask) as [m Hm].
  destruct (get_idx_known d _ Hcath) as [cath Hc].
  destruct (write_partial_class d p 0 (cath :: replicate L m)) as [Ha Hb];
    [simpl; lia|].
  simpl in Ha, Hb. rewrite length_replicate, Nat.sub_0_r in Ha, Hb.
  unfold init_tokens. rewrite Hm. simpl. rewrite Hc. simpl.
  change [<[0:=cath]> (m :: replicate L m)] with [cath :: replicate L m].
  split.
  - intros Hbad. by rewrite (Ha Hbad).
  - intros Hlen Hall. by rewrite (Hb Hlen Hall).
Qed.

(** ** The decode loop: what the decoder sees, what the generator gives *)

Lemma keeps_except_take m l row row' a :
  keeps_except m l row row' → (∀ c, c ∈ l → a ≤ c) → take a row' = take a row.
Proof.
  intros Hk Hl. apply list_eq. intros i.
  destruct (decide (i < a)) as [Hi|Hi].
  - rewrite !lookup_take_lt by done. eapply keeps_except_lookup; [done|].
    intros Hin. apply Hl in Hin. lia.
  - rewrite !lookup_take_ge by lia. done.
Qed.

Lemma draws_mjoin_replicate n ks : draws (mjoin (replicate n ks)) = n * draws ks.
Proof.
  induction n as [|n IH]; [done|]. simpl. rewrite draws_app, IH. lia.
Qed.

Lemma filter_seq_shift (f g : nat → bool) n : ∀ a b,
  (∀ i, i < n → f (a + i) = g (b + i)) →
  length (List.filter f (seq a n)) = length (List.filter g (seq b n)).
Proof.
  induction n as [|n IH]; intros a b Hfg; [done|]. simpl.
  pose proof (Hfg 0) as H0. rewrite !Nat.add_0_r in H0. rewrite H0 by lia.
  assert (length (List.filter f (seq (S a) n)) = length (List.filter g (seq (S b) n)))
    as Hrec.
  { apply IH. intros i Hi. specialize (Hfg (S i)).
    replace (S a + i) with (a + S i) by lia.
    replace (S b + i) with (b + S i) by lia. apply Hfg. lia. }
  destruct (g b); simpl; by rewrite Hrec.
Qed.

(** The positions the loop draws at are those the partial sequence
    leaves to be sampled. *)
Lemma draws_of_initial_row d L ps m row0 :
  init_tokens d L ps = Ok (m, [row0]) →
  draws (loop_kinds m row0 (seq 1 L)) = masked_positions ps L.
Proof.
  intros Hinit. rewrite draws_loop_kinds. unfold masked_positions.
  apply filter_seq_shift. intros i Hi. simpl.
  apply init_tokens_ok in Hinit as (_ & Hm & cath & row0' & _ & Heq & _ & _ & Hall).
  inversion Heq; subst row0'.
  destruct (Hall i Hi) as (v & Hv & Hr). rewrite Hr.
  apply bool_decide_ext. split.
  - intros Hvm. inversion Hvm; subst v. by eapply get_idx_inj.
  - intros Hs. rewrite Hs in Hv. congruence.
Qed.

Section LoopFacts.
Context `{Env}.

Lemma decoder_prefixes_app (e1 e2 : list Event) :
  decoder_prefixes (e1 ++ e2) = (decoder_prefixes e1 ++ decoder_prefixes e2)%list.
Proof. unfold decoder_prefixes. apply omap_app. Qed.

Lemma sample_step_prefix self m enc addr temp i t st t' st' :
  sample_step self m enc addr temp i t st = (Ok t', st') →
  ∃ evs, trace st' = (trace st ++ evs)%list ∧
         decoder_prefixes evs = [prefix_cols i t].
Proof.
  unfold sample_step. intros Hs.
  apply bind_ok_inv in Hs as (lg & st1 & Hdec & Hs).
  apply bind_ok_inv in Hs as (lg0 & st2 & Hidx & Hs).
  apply lift_inv in Hidx as [_ ->].
  apply bind_ok_inv in Hs as (cur & st3 & Hget & Hs).
  apply lift_inv in Hget as [_ ->].
  apply call_decoder_ok in Hdec as (c & c' & _ & _ & _ & Htr).
  case_bool_decide as Hm.
  - apply bind_ok_inv in Hs as (drawn & st4 & Hmul & Hs).
    apply lift_inv in Hs as [_ ->].
    apply multinomial_ok in Hmul as (_ & _ & Htr4).
    eexists. split; [by rewrite Htr4, Htr, <- app_assoc|done].
  - apply ret_inv in Hs as [_ ->]. eexists. split; [done|done].
Qed.

(** The decoder invocation of step i is on the first i entries of the
    row as it will be at the end of the loop: what is decided at a step
    is not touched again. *)
Lemma sample_loop_prefixes self m enc addr temp n : ∀ a row st t' st',
  for_each (seq a n) (sample_step self m enc addr temp) [row] st = (Ok t', st') →
  ∃ row' evs,
    t' = [row'] ∧ keeps_except m (seq a n) row row' ∧
    trace st' = (trace st ++ evs)%list ∧
    decoder_prefixes evs = (λ i, [take i row']) <$> seq a n.
Proof.
  induction n as [|n IH]; intros a row st t' st' Hf; simpl in Hf.
  - apply ret_inv in Hf as [Hf ->]. inversion Hf; subst.
    exists row, []. rewrite app_nil_r. split_and!; try done; apply keeps_except_refl.
  - apply bind_ok_inv in Hf as (t1 & st1 & Hstep & Hf).
    pose proof (sample_step_prefix _ _ _ _ _ _ _ _ _ _ Hstep) as (evs1 & Htr1 & Hp1).
    apply sample_step_ok in Hstep
      as (row0 & row1 & evs1' & Hrow0 & _ & Hrow1 & Hlen1 & Hk1 & _ & _).
    simpl in Hrow0. inversion Hrow0; subst row0.
    assert (t1 = [row1]) as ->.
    { destruct t1 as [|r [|? ?]]; simpl in *; try discriminate. congruence. }
    destruct (IH _ _ _ _ _ Hf) as (row' & evs2 & -> & Hk2 & Htr2 & Hp2).
    exists row', (evs1 ++ evs2)%list. split_and!; [done| | |].
    + change (seq a (S n)) with ([a] ++ seq (S a) n)%list.
      by eapply keeps_except_trans.
    + by rewrite Htr2, Htr1, <- app_assoc.
    + assert (take a row' = take a row) as Ht.
      { transitivity (take a row1).
        - eapply keeps_except_take; [exact Hk2|].
          intros c Hc%elem_of_seq. lia.
        - eapply keeps_except_take; [exact Hk1|].
          intros c ->%list_elem_of_singleton. done. }
      rewrite decoder_prefixes_app, Hp1, Hp2. unfold prefix_cols.
      simpl. by rewrite Ht.
Qed.

(** *** The generator *)

Lemma rng_frame_ret {A} (a : A) : rng_frame (ret a).
Proof. intros st. exists []. by rewrite app_nil_r. Qed.

Lemma rng_frame_lift {A} (r : Result A) : rng_frame (lift r).
Proof. intros st. exists []. by rewrite app_nil_r. Qed.

Lemma rng_frame_bind {A B} (m : M A) (k : A → M B) :
  rng_frame m → (∀ a, rng_frame (k a)) → rng_frame (bind m k).
Proof.
  intros Hm Hk st. unfold bind. destruct (Hm st) as (evs1 & Ht1 & Hr1).
  destruct (m st) as [[a|e] st1]; simpl in *.
  - destruct (Hk a st1) as (evs2 & Ht2 & Hr2).
    exists (evs1 ++ evs2)%list. split; [by rewrite Ht2, Ht1, <- app_assoc|].
    rewrite fmap_app, draws_app. intros Hd.
    rewrite Hr2, Hr1 by lia. done.
  - by exists evs1.
Qed.

Lemma rng_frame_for_each {X} (body : nat → X → M X) l :
  (∀ i x, rng_frame (body i x)) → ∀ x, rng_frame (for_each l body x).
Proof.
  intros Hbody. induction l as [|i l IH]; intros x; simpl.
  - apply rng_frame_ret.
  - apply rng_frame_bind; [done | auto].
Qed.

Lemma rng_frame_new_dict : rng_frame new_dict.
Proof. intros st. exists []. simpl. by rewrite app_nil_r. Qed.

Lemma rng_frame_call_encoder self bc pm cf : rng_frame (call_encoder self bc pm cf).
Proof. intros st. by exists [EvEncoder bc pm cf]. Qed.

Lemma rng_frame_call_decoder self prev enc addr :
  rng_frame (call_decoder self prev enc addr).
Proof.
  intros st. unfold call_decoder. destruct (store st !! addr) as [c|].
  - destruct (decoder self prev enc c) as [[lg c']|e]; simpl; by eexists [_].
  - exists []. simpl. by rewrite app_nil_r.
Qed.

Lemma rng_frame_multinomial probs : rng_frame (multinomial probs).
Proof.
  intros st. unfold multinomial. destruct (draw_rows probs (rng st)) as [r g].
  exists [EvMultinomial probs]. simpl. split; [done|]. discriminate.
Qed.

Lemma rng_frame_sample_step self m enc addr temp i t :
  rng_frame (sample_step self m enc addr temp i t).
Proof.
  unfold sample_step.
  apply rng_frame_bind; [apply rng_frame_call_decoder|]. intros lg.
  apply rng_frame_bind; [apply rng_frame_lift|]. intros lg0.
  apply rng_frame_bind; [apply rng_frame_lift|]. intros cur.
  case_bool_decide; [|apply rng_frame_ret].
  apply rng_frame_bind; [apply rng_frame_multinomial|]. intros drawn.
  apply rng_frame_lift.
Qed.

Lemma rng_frame_batch2_step self m enc addr temp i t :
  rng_frame (batch2_step self m enc addr temp i t).
Proof.
  unfold batch2_step.
  apply rng_frame_bind; [apply rng_frame_call_decoder|]. intros lg.
  apply rng_frame_for_each. intros j x. unfold batch2_row.
  apply rng_frame_bind; [apply rng_frame_lift|]. intros cell.
  apply rng_frame_bind; [apply rng_frame_lift|]. intros b.
  destruct b; [|apply rng_frame_ret].
  apply rng_frame_bind; [apply rng_frame_lift|]. intros pj.
  apply rng_frame_bind; [apply rng_frame_multinomial|]. intros printed.
  apply rng_frame_bind; [apply rng_frame_lift|]. intros pj'.
  apply rng_frame_bind; [apply rng_frame_multinomial|]. intros drawn.
  apply rng_frame_lift.
Qed.

Lemma rng_frame_sample self a : rng_frame (sample self a).
Proof.
  unfold sample. cbv zeta.
  apply rng_frame_bind; [apply rng_frame_lift|]. intros [[bc cf] pm].
  apply rng_frame_bind; [apply rng_frame_lift|]. intros [m t0].
  apply rng_frame_bind; [apply rng_frame_new_dict|]. intros addr.
  apply rng_frame_bind; [apply rng_frame_call_encoder|]. intros enc.
  apply rng_frame_bind.
  { apply rng_frame_for_each. intros. apply rng_frame_sample_step. }
  intros t'. apply rng_frame_bind; [apply rng_frame_lift|]. intros syms.
  apply rng_frame_ret.
Qed.

Lemma rng_frame_sample_batch self a : rng_frame (sample_batch self a).
Proof.
  unfold sample_batch. cbv zeta.
  apply rng_frame_bind; [apply rng_frame_lift|]. intros [[bc cf] pm].
  apply rng_frame_bind; [apply rng_frame_lift|]. intros [m t0].
  apply rng_frame_bind; [apply rng_frame_new_dict|]. intros addr.
  apply rng_frame_bind; [apply rng_frame_call_encoder|]. intros all.
  apply rng_frame_for_each. intros k acc. unfold sample_batch_body.
  apply rng_frame_bind; [apply rng_frame_lift|]. intros t.
  apply rng_frame_bind; [apply rng_frame_lift|]. intros enc.
  apply rng_frame_bind.
  { apply rng_frame_for_each. intros. apply rng_frame_sample_step. }
  intros t'. apply rng_frame_bind; [apply rng_frame_lift|]. intros syms.
  apply rng_frame_ret.
Qed.

Lemma rng_frame_sample_batch2 self a : rng_frame (sample_batch2 self a).
Proof.
  unfold sample_batch2. cbv zeta.
  apply rng_frame_bind; [apply rng_frame_lift|]. intros [[bc cf] pm].
  apply rng_frame_bind; [apply rng_frame_lift|]. intros [m t0].
  apply rng_frame_bind; [apply rng_frame_new_dict|]. intros addr.
  apply rng_frame_bind; [apply rng_frame_call_encoder|]. intros all.
  apply rng_frame_bind; [apply rng_frame_lift|]. intros enc.
  apply rng_frame_bind.
  { apply rng_frame_for_each. intros. apply rng_frame_batch2_step. }
  intros t'. apply rng_frame_for_each. intros k acc.
  apply rng_frame_bind; [apply rng_frame_lift|]. intros syms.
  apply rng_frame_ret.
Qed.

Lemma rng_frame_run s self a : rng_frame (run s self a).
Proof.
  destruct s; simpl.
  - apply rng_frame_bind; [apply rng_frame_sample|]. intros. apply rng_frame_ret.
  - apply rng_frame_sample_batch.
  - apply rng_frame_sample_batch2.
Qed.

End LoopFacts.

(** ** Whole calls *)

Lemma filter_none {A} (f : A → bool) (l : list A) :
  (∀ x, x ∈ l → f x = false) → List.filter f l = [].
Proof.
  induction l as [|x l IH]; intros Hf; [done|]. simpl.
  rewrite Hf by left. apply IH. intros; apply Hf; by right.
Qed.

Lemma masked_positions_none p L :
  length p = L → "<mask>" ∉ p → masked_positions (Some p) L = 0.
Proof.
  intros Hlen Hno. unfold masked_positions. rewrite filter_none; [done|].
  intros i Hi%elem_of_seq. apply bool_decide_eq_false. simpl.
  destruct (lookup_lt_is_Some_2 p i) as [c Hc]; [lia|]. rewrite Hc. simpl.
  intros ->. apply Hno. by eapply list_elem_of_lookup_2.
Qed.

(** The autoregressive invariant of [sample].  In a call that returns,
    the decoder invocation of step i (i = 1..L) receives exactly the
    first i entries of the final token buffer, that is the start token
    followed by the first i-1 tokens of the returned sequence. *)
Theorem decoder_sees_final_prefix `{Env} (self : Model) (a : Args) (st st' : State)
    (out : string) :
  sample self a st = (Ok out, st') →
  ∃ row' syms evs,
    length row' = S (length (coords a)) ∧
    rmapM (get_tok (dictionary self)) (drop 1 row') = Ok syms ∧
    out = join syms ∧
    trace st' = (trace st ++ evs)%list ∧
    decoder_prefixes evs = (λ i, [take i row']) <$> seq 1 (length (coords a)).
Proof.
  unfold sample. intros Hs.
  apply bind_ok_inv in Hs as ([[bc cf] pm] & st1 & Hbc & Hs).
  apply lift_inv in Hbc as [_ ->].
  apply bind_ok_inv in Hs as ([m t0] & st2 & Hinit & Hs).
  apply lift_inv in Hinit as [Hinit ->]. symmetry in Hinit.
  destruct (init_tokens_ok _ _ _ _ _ Hinit) as (_ & _ & cath & row0 & _ & -> & Hlen0 & _).
  apply bind_ok_inv in Hs as (addr & st3 & Hnew & Hs).
  unfold new_dict in Hnew. inversion Hnew; subst addr st3. clear Hnew.
  apply bind_ok_inv in Hs as (enc & st4 & Henc & Hs).
  unfold call_encoder in Henc. inversion Henc as [[Henc' Hst4]]. clear Henc.
  apply bind_ok_inv in Hs as (t' & st5 & Hloop & Hs).
  apply sample_loop_prefixes in Hloop as (row' & evs & -> & [Hlen _] & Htr & Hpre).
  apply bind_ok_inv in Hs as (syms & st6 & Hsym & Hs).
  apply lift_inv in Hsym as [Hsym ->]. symmetry in Hsym.
  apply decode_symbols_ok in Hsym as (row1 & Hrow1 & Hsyms).
  simpl in Hrow1. inversion Hrow1; subst row1.
  apply ret_inv in Hs as [Hs ->]. inversion Hs; subst out.
  exists row', syms, (EvEncoder bc pm cf :: evs). split_and!; try done.
  - lia.
  - rewrite Htr, <- Hst4. simpl. by rewrite <- app_assoc.
Qed.

(** A call of any strategy that returns gives as many sequences as the
    strategy promises (one for [sample], num_samples for the two batch
    strategies), each the concatenation of exactly L vocabulary
    symbols. *)
Theorem outputs_are_L_symbols_each `{Env} (s : strategy) (self : Model) (a : Args)
    (st st' : State) (outs : list string) :
  run s self a st = (Ok outs, st') →
  length outs = outputs_of s a ∧
  ∀ out, out ∈ outs →
    ∃ syms, out = join syms ∧ length syms = length (coords a) ∧
            Forall (λ y, y ∈ all_toks (dictionary self)) syms.
Proof.
  intros Hr.
  apply run_ok in Hr
    as (bc & cf & pm & m & row0 & all & evs & _ & Hinit & _ & Hlen & Hgood & _).
  split; [done|]. intros out Hout. rewrite Forall_forall in Hgood.
  destruct (good_output_fixed _ _ _ _ _ _ Hinit (Hgood out Hout))
    as (syms & -> & Hl & Hvoc & _).
  by exists syms.
Qed.

Lemma run_draws `{Env} (s : strategy) (self : Model) (a : Args)
    (st st' : State) (outs : list string) :
  s ≠ SampleBatch2 →
  run s self a st = (Ok outs, st') →
  ∃ evs,
    trace st' = (trace st ++ evs)%list ∧
    draws (kind_of <$> evs) =
      decode_loops s a * masked_positions (partial_seq a) (length (coords a)).
Proof.
  intros Hs Hr.
  apply run_ok in Hr
    as (bc & cf & pm & m & row0 & all & evs & _ & Hinit & _ & _ & _ & Htr & _ & Hkd).
  exists (EvEncoder bc pm cf :: evs). split; [done|].
  rewrite fmap_cons. change (?k :: ?ks) with ([k] ++ ks)%list.
  rewrite draws_app, (Hkd Hs), draws_mjoin_replicate.
  by rewrite (draws_of_initial_row _ _ _ _ _ Hinit).
Qed.

(** The generator is consulted once per position left to be sampled.  In
    a call of [sample] or [sample_batch] that returns, the number of
    multinomial calls is the number of decode loops times the number of
    positions 0..L-1 that the partial sequence does not reach or marks
    ['<mask>']. *)
Theorem one_draw_per_masked_position `{Env} (s : strategy) (self : Model) (a : Args)
    (st st' : State) (outs : list string) :
  s ≠ SampleBatch2 →
  run s self a st = (Ok outs, st') →
  ∃ evs,
    trace st' = (trace st ++ evs)%list ∧
    draws (kind_of <$> evs) =
      decode_loops s a * masked_positions (partial_seq a) (length (coords a)).
Proof. apply run_draws. Qed.

(** A fully specified partial sequence (L symbols, none of them
    ['<mask>']) is returned verbatim by every strategy, in every returned
    sequence; [sample] and [sample_batch] then make no multinomial call
    and leave the generator as they found it. *)
Theorem fully_specified_is_returned_verbatim `{Env} (s : strategy) (self : Model)
    (a : Args) (st st' : State) (outs : list string) (p : list string) :
  run s self a st = (Ok outs, st') →
  partial_seq a = Some p → length p = length (coords a) → "<mask>" ∉ p →
  outs = replicate (outputs_of s a) (join p) ∧
  (s ≠ SampleBatch2 → rng st' = rng st).
Proof.
  intros Hr Hp Hlen Hno. split.
  - apply run_ok in Hr
      as (bc & cf & pm & m & row0 & all & evs & _ & Hinit & _ & Hl & Hgood & _).
    symmetry. apply replicate_as_Forall. split; [done|].
    eapply Forall_impl; [exact Hgood|]. simpl. intros out Hout.
    destruct (good_output_fixed _ _ _ _ _ _ Hinit Hout) as (syms & -> & Hls & _ & Hfix).
    f_equal. apply list_eq. intros i.
    destruct (decide (i < length (coords a))) as [Hi|Hi].
    + assert (symbol_at (partial_seq a) i ≠ "<mask>") as Hne.
      { rewrite Hp. simpl.
        destruct (lookup_lt_is_Some_2 p i) as [c Hc]; [lia|]. rewrite Hc. simpl.
        intros ->. apply Hno. by eapply list_elem_of_lookup_2. }
      rewrite (Hfix i Hi Hne), Hp. simpl.
      destruct (lookup_lt_is_Some_2 p i) as [c Hc]; [lia|]. by rewrite Hc.
    + rewrite !lookup_ge_None_2 by lia. done.
  - intros Hs.
    destruct (run_draws s self a st st' outs Hs Hr) as (evs & Htr & Hd).
    destruct (rng_frame_run s self a st) as (evs' & Htr' & Hrng).
    rewrite Hr in Htr', Hrng. simpl in Htr', Hrng.
    rewrite Htr in Htr'. apply app_inv_head in Htr'. subst evs'.
    apply Hrng. rewrite Hd, Hp, masked_positions_none by done. lia.
Qed.

(** ** [sample_batch2] without a device *)

Lemma batch2_convert_rows `{Env} (self : Model) (t : list (list Z)) ks :
  ∀ acc st outs st',
  for_each ks
    (λ sample_idx all_seqs,
       let* syms := lift (decode_symbols (dictionary self) t sample_idx) in
       ret (all_seqs ++ [join syms])%list) acc st = (Ok outs, st') →
  ∀ k, k ∈ ks → k < length t.
Proof.
  induction ks as [|k0 ks IH]; intros acc st outs st' Hf k Hk.
  - by apply elem_of_nil in Hk.
  - simpl in Hf. apply bind_ok_inv in Hf as (acc1 & st1 & Hbody & Hf).
    apply elem_of_cons in Hk as [->|Hk]; [|by eapply IH].
    apply bind_ok_inv in Hbody as (syms & st2 & Hsym & _).
    apply lift_inv in Hsym as [Hsym _]. symmetry in Hsym.
    apply decode_symbols_ok in Hsym as (row & Hrow & _).
    by eapply lookup_lt_Some.
Qed.

(** Without a device the token buffer of [sample_batch2] is not
    replicated and keeps its single row, so for num_samples >= 2 the
    call never returns: if nothing fails before, reading row 1 in the
    final conversion does. *)
Theorem sample_batch2_needs_device `{Env} (self : Model) (a : Args) (st : State) :
  device a = None → 2 ≤ num_samples a →
  ∃ e, (sample_batch2 self a st).1 = Err e.
Proof.
  intros Hdev Hn.
  destruct (sample_batch2 self a st) as [[outs|e] st'] eqn:Hs; [exfalso | by exists e].
  unfold sample_batch2 in Hs. rewrite Hdev in Hs.
  apply bind_ok_inv in Hs as ([[bc cf] pm] & st1 & Hbc & Hs).
  apply bind_ok_inv in Hs as ([m t0] & st2 & Hinit & Hs).
  apply lift_inv in Hinit as [Hinit ->]. symmetry in Hinit.
  destruct (init_tokens_ok _ _ _ _ _ Hinit) as (_ & _ & cath & row0 & _ & -> & _).
  apply bind_ok_inv in Hs as (addr & st3 & _ & Hs).
  apply bind_ok_inv in Hs as (all & st4 & _ & Hs).
  apply bind_ok_inv in Hs as (enc & st5 & _ & Hs).
  apply bind_ok_inv in Hs as (t' & st6 & Hloop & Hs).
  apply batch2_loop_ok in Hloop as ([Hlen _] & _).
  pose proof (batch2_convert_rows _ _ _ _ _ _ _ Hs 1) as Hrow.
  simpl in Hlen. rewrite Hlen in Hrow.
  assert (1 < 1); [|lia]. apply Hrow. apply elem_of_seq. lia.
Qed.

(** ** The incremental state, in every strategy *)

(** Whatever the strategy and the outcome of the call: the dicts that
    existed before are left as they were and at most one is added; the
    first decoder invocation finds that dict empty, and every later one
    finds it exactly as the previous invocation left it. *)
Theorem incremental_state_is_threaded `{Env} (s : strategy) (self : Model)
    (a : Args) (st : State) :
  (run s self a st).2 = st ∨
  ∃ bc cf pm evs c',
    trace (run s self a st).2 = (trace st ++ EvEncoder bc pm cf :: evs)%list ∧
    store (run s self a st).2 = (store st ++ [c'])%list ∧
    (∀ mid a2 p2 e2 c2 c2' post,
       evs = (mid ++ EvDecoder a2 p2 e2 c2 c2' :: post)%list →
       decoder_calls (kind_of <$> mid) = 0 →
       a2 = length (store st) ∧ c2 = ∅) ∧
    (∀ pre a1 p1 e1 c1 c1' mid a2 p2 e2 c2 c2' post,
       evs = (pre ++ EvDecoder a1 p1 e1 c1 c1' :: mid
                  ++ EvDecoder a2 p2 e2 c2 c2' :: post)%list →
       decoder_calls (kind_of <$> mid) = 0 →
       a1 = length (store st) ∧ a2 = length (store st) ∧ c2 = c1').
Proof.
  destruct (run_any self s a st)
    as [[Heq _]|(bc & cf & pm & c' & evs & _ & Htr & Hst & Hch)]; [by left|].
  right. exists bc, cf, pm, evs, c'. split_and!; [done|done| |].
  - intros mid a2 p2 e2 c2 c2' post -> Hmid. by eapply chained_skip_draws.
  - intros pre a1 p1 e1 c1 c1' mid a2 p2 e2 c2 c2' post -> Hmid.
    by eapply chained_adjacent.
Qed.

(** ** The encoder output handed to the decoder *)

Section EncoderOut.
Context `{Env}.

Lemma enc_first_ok (all : EncOut) key x :
  enc_first all key = Ok x → ∃ l, all !! key = Some (EList (x :: l)).
Proof.
  unfold enc_first. destruct (all !! key) as [[[|y l]|o]|]; try discriminate.
  intros Hx; inversion Hx; subst. eauto.
Qed.

(** The per-sample encoder output of [sample_batch] (lines 199-208) has
    exactly the keys of the encoder's result; under ['encoder_out'] and
    ['encoder_padding_mask'] it holds the one-element list of the slice
    of the first tensor, and under any other key the value sliced, or the
    value itself when slicing it raises. *)
Theorem slice_encoder_out_keys (all e : EncOut) (k : nat) :
  slice_encoder_out all k = Ok e →
  dom e = dom all ∧
  (∃ x l x', all !! "encoder_out" = Some (EList (x :: l)) ∧
             slice_dim1 x k = Ok x' ∧ e !! "encoder_out" = Some (EList [x'])) ∧
  (∃ y l y', all !! "encoder_padding_mask" = Some (EList (y :: l)) ∧
             slice_dim0 y k = Ok y' ∧
             e !! "encoder_padding_mask" = Some (EList [y'])) ∧
  ∀ key v, key ≠ "encoder_out" → key ≠ "encoder_padding_mask" →
    all !! key = Some v → e !! key = Some (default v (slice_val v k)).
Proof.
  unfold slice_encoder_out. intros Hs.
  apply rbind_ok_inv in Hs as (x & Hx & Hs).
  apply rbind_ok_inv in Hs as (x' & Hx' & Hs).
  apply rbind_ok_inv in Hs as (y & Hy & Hs).
  apply rbind_ok_inv in Hs as (y' & Hy' & Hs).
  inversion Hs; subst e. clear Hs.
  apply enc_first_ok in Hx as [lx Hx]. apply enc_first_ok in Hy as [ly Hy].
  split_and!.
  - rewrite !dom_insert_L, dom_fmap_L.
    assert ("encoder_out" ∈ dom all) as Hin1 by (by eapply elem_of_dom_2).
    assert ("encoder_padding_mask" ∈ dom all) as Hin2 by (by eapply elem_of_dom_2).
    apply set_eq. intros key. rewrite !elem_of_union, !elem_of_singleton.
    split; [intros [->|[->|?]]; done | auto].
  - exists x, lx, x'. split_and!; [done|done|].
    rewrite lookup_insert_ne by done. by rewrite lookup_insert_eq.
  - exists y, ly, y'. split_and!; [done|done|]. by rewrite lookup_insert_eq.
  - intros key v Hk1 Hk2 Hv.
    rewrite !lookup_insert_ne by done. by rewrite lookup_fmap, Hv.
Qed.

(** The encoder output of [sample_batch2] (lines 277-285) has the keys
    of the encoder's result and its values, except that the two tensor
    lists are cut to their first element; building it again from itself
    changes nothing, and it is the encoder's result itself when the two
    lists have one element. *)
Theorem copy_encoder_out_keeps (all e : EncOut) :
  copy_encoder_out all = Ok e →
  dom e = dom all ∧
  copy_encoder_out e = Ok e ∧
  (∀ key, key ≠ "encoder_out" → key ≠ "encoder_padding_mask" →
          e !! key = all !! key) ∧
  (∀ x y, all !! "encoder_out" = Some (EList [x]) →
          all !! "encoder_padding_mask" = Some (EList [y]) → e = all).
Proof.
  unfold copy_encoder_out. intros Hs.
  apply rbind_ok_inv in Hs as (x & Hx & Hs).
  apply rbind_ok_inv in Hs as (y & Hy & Hs).
  inversion Hs; subst e. clear Hs.
  pose proof Hx as Hx0. pose proof Hy as Hy0.
  apply enc_first_ok in Hx as [lx Hx]. apply enc_first_ok in Hy as [ly Hy].
  split_and!.
  - rewrite !dom_insert_L.
    assert ("encoder_out" ∈ dom all) as Hin1 by (by eapply elem_of_dom_2).
    assert ("encoder_padding_mask" ∈ dom all) as Hin2 by (by eapply elem_of_dom_2).
    apply set_eq. intros key. rewrite !elem_of_union, !elem_of_singleton.
    split; [intros [->|[->|?]]; done | auto].
  - unfold enc_first.
    rewrite lookup_insert_ne by done. rewrite lookup_insert_eq. simpl.
    rewrite lookup_insert_eq. simpl.
    rewrite (insert_insert_ne _ "encoder_out" "encoder_padding_mask") by done.
    by rewrite !insert_insert_eq.
  - intros key Hk1 Hk2. by rewrite !lookup_insert_ne.
  - intros x1 y1 Hx1 Hy1. rewrite Hx in Hx1. rewrite Hy in Hy1.
    inversion Hx1; subst. inversion Hy1; subst.
    rewrite (insert_id all "encoder_out") by done. by rewrite insert_id.
Qed.

End EncoderOut.

(** ** Edges *)

(** [sample_batch2] reads the first tensor under ['encoder_out'] before
    its decode loop: once batch conversion, initialisation and the
    encoder have succeeded, an encoder result without that key raises the
    KeyError, and one with an empty list there the IndexError, right
    after the encoder call and before any decoder invocation. *)
Theorem sample_batch2_needs_encoder_out `{Env} (self : Model) (a : Args) (st : State)
    (bc cf pm : Tn) (m : Z) (t0 : list (list Z)) (all : EncOut) :
  batch_converter (dictionary self)
    (replicate (num_samples a) (coords a, confidence a)) (device a) = Ok (bc, cf, pm) →
  init_tokens (dictionary self) (length (coords a)) (partial_seq a) = Ok (m, t0) →
  encoder self bc pm cf = Ok all →
  all !! "encoder_out" = None ∨ all !! "encoder_out" = Some (EList []) →
  ∃ e,
    sample_batch2 self a st =
      (Err e, mkState _ (rng st) (store st ++ [∅])
                (trace st ++ [EvEncoder bc pm cf])) ∧
    (all !! "encoder_out" = None → e = KeyError) ∧
    (all !! "encoder_out" = Some (EList []) → e = IndexError).
Proof.
  intros Hbc Hinit Henc Hall.
  assert (∃ e, copy_encoder_out all = Err e ∧
               (all !! "encoder_out" = None → e = KeyError) ∧
               (all !! "encoder_out" = Some (EList []) → e = IndexError))
    as (e & Hcopy & He1 & He2).
  { unfold copy_encoder_out, enc_first.
    destruct Hall as [Hn|Hn]; rewrite Hn; simpl; eexists; split_and!; try done. }
  exists e. split; [|done].
  unfold sample_batch2. cbv zeta.
  erewrite lift_bind_ok by done. cbv beta iota.
  erewrite lift_bind_ok by done. cbv beta iota.
  unfold bind at 1. unfold new_dict. unfold bind at 1. unfold call_encoder.
  rewrite Henc. cbn [rng store trace].
  by erewrite lift_bind_err by done.
Qed.

(** The empty structure.  With no residue (L = 0), no partial sequence
    (or the empty one) and a successful batch conversion and encoder
    call, [sample] returns the empty string for any temperature, having
    invoked the encoder once and neither the decoder nor the
    generator. *)
Theorem empty_coords_give_empty_sequence `{Env} (self : Model) (a : Args) (st : State)
    (bc cf pm : Tn) (all : EncOut) :
  coords a = [] →
  partial_seq a = None ∨ partial_seq a = Some [] →
  "<mask>" ∈ all_toks (dictionary self) → "<cath>" ∈ all_toks (dictionary self) →
  batch_converter (dictionary self) [([], confidence a)] (device a) = Ok (bc, cf, pm) →
  encoder self bc pm cf = Ok all →
  sample self a st =
    (Ok "", mkState _ (rng st) (store st ++ [∅]) (trace st ++ [EvEncoder bc pm cf])).
Proof.
  intros Hc Hps Hmask Hcath Hbc Henc.
  destruct (get_idx_known _ _ Hmask) as [m Hm].
  destruct (get_idx_known _ _ Hcath) as [cath Hca].
  assert (init_tokens (dictionary self) 0 (partial_seq a) = Ok (m, [[cath]])) as Hinit.
  { unfold init_tokens. rewrite Hm. simpl. rewrite Hca. simpl.
    by destruct Hps as [-> | ->]. }
  unfold sample. cbv zeta. rewrite Hc. simpl length.
  erewrite lift_bind_ok by done. cbv beta iota.
  erewrite lift_bind_ok by done. cbv beta iota.
  unfold bind at 1. unfold new_dict. unfold bind at 1. unfold call_encoder.
  rewrite Henc. reflexivity.
Qed.

(** No sample asked for.  With num_samples = 0, and whether or not a
    device is given, [sample_batch] returns the empty list once the batch
    conversion, the initialisation and the encoder have succeeded: the
    encoder has run, the decoder has not. *)
Theorem sample_batch_of_zero `{Env} (self : Model) (a : Args) (st : State)
    (bc cf pm : Tn) (m : Z) (t0 : list (list Z)) (all : EncOut) :
  num_samples a = 0 →
  batch_converter (dictionary self) [] (device a) = Ok (bc, cf, pm) →
  init_tokens (dictionary self) (length (coords a)) (partial_seq a) = Ok (m, t0) →
  encoder self bc pm cf = Ok all →
  sample_batch self a st =
    (Ok [], mkState _ (rng st) (store st ++ [∅]) (trace st ++ [EvEncoder bc pm cf])).
Proof.
  intros Hn Hbc Hinit Henc.
  unfold sample_batch. cbv zeta. rewrite Hn. simpl replicate.
  erewrite lift_bind_ok by done. cbv beta iota.
  erewrite lift_bind_ok by done. cbv beta iota.
  unfold bind at 1. unfold new_dict. unfold bind at 1. unfold call_encoder.
  rewrite Henc. reflexivity.
Qed.

(** ** [sample_batch] with a device *)

Section BatchTotal.
Context `{Env}.
Variables (self : Model) (m : Z) (all : EncOut) (addr : nat) (temp : Q) (L N : nat).
Variable row0 : list Z.
Hypothesis HC : Contracts self.
Hypothesis Htemp : (0 < temp)%Q.
Hypothesis Hslice : ∀ k, k < N → ∃ e, slice_encoder_out all k = Ok e.
Hypothesis Hrow0 : Forall (in_vocab (dictionary self)) row0.
Hypothesis Hlen0 : length row0 = S L.

Lemma sample_batch_loop_total ks : ∀ acc st,
  (∀ k, k ∈ ks → k < N) → is_Some (store st !! addr) →
  ∃ outs st',
    for_each ks
      (sample_batch_body self m all addr temp L (Some (replicate N [row0])))
      acc st = (Ok outs, st') ∧
    length outs = length acc + length ks.
Proof.
  induction ks as [|k ks IH]; intros acc st Hks Hst; simpl.
  - exists acc, st. split; [done | lia].
  - destruct (Hslice k) as [enc Henc]; [apply Hks; left|].
    destruct (sample_loop_total_contracts self m enc addr temp (seq 1 L) row0 st
                HC Htemp)
      as (row' & st1 & Hloop & Hlen' & Hrow' & _); [|done|done|].
    { apply Forall_forall. intros i Hi%elem_of_seq. lia. }
    destruct (rmapM_get_tok_total (dictionary self) (drop 1 row')) as [syms Hsyms].
    { by apply Forall_drop. }
    assert (is_Some (store st1 !! addr)) as Hst1.
    { pose proof (M_threads_for_each addr (λ e, e = enc)
                    (sample_step self m enc addr temp) (seq 1 L)
                    (λ i x, M_threads_sample_step addr self m enc temp i x)
                    [row0] st Hst) as Hth.
      rewrite Hloop in Hth. by eapply threads_is_Some. }
    destruct (IH (acc ++ [join syms])%list st1) as (outs & st' & Hrec & Hlen);
      [intros; apply Hks; by right | done |].
    exists outs, st'. split.
    + unfold bind at 1. unfold sample_batch_body.
      erewrite lift_bind_ok
        by (rewrite lookup_replicate_2; [done | apply Hks; left]).
      erewrite lift_bind_ok by done.
      unfold bind at 1. rewrite Hloop.
      erewrite lift_bind_ok
        by (unfold decode_symbols, row_tail; simpl; exact Hsyms).
      unfold ret at 1. exact Hrec.
    + rewrite Hlen, length_app. simpl. lia.
Qed.

End BatchTotal.

(** With a device, [sample_batch] returns.  For collaborators that
    honour their contracts, a temperature T > 0, a successful batch
    conversion, a partial sequence (if any) of known symbols not longer
    than L, and an encoder result every sample's slice of which can be
    taken, the call returns num_samples sequences. *)
Theorem sample_batch_returns `{Env} (self : Model) (a : Args) (st : State)
    (dev : Device) :
  Contracts self →
  (0 < temperature a)%Q →
  device a = Some dev →
  (∃ b, batch_converter (dictionary self)
          (replicate (num_samples a) (coords a, confidence a)) (device a) = Ok b) →
  (∀ p, partial_seq a = Some p →
        length p ≤ length (coords a) ∧ ∀ c, c ∈ p → c ∈ all_toks (dictionary self)) →
  (∀ bc pm cf all k, encoder self bc pm cf = Ok all → k < num_samples a →
                     ∃ e, slice_encoder_out all k = Ok e) →
  ∃ outs st',
    sample_batch self a st = (Ok outs, st') ∧ length outs = num_samples a.
Proof.
  intros HC HT Hdev [[[bc cf] pm] Hbc] Hps Hslice.
  destruct (init_tokens_total (dictionary self) (length (coords a)) (partial_seq a))
    as (m & row0 & Hinit & Hlen0 & Hrow0);
    [apply HC | apply HC | done |].
  destruct (encoder_answers self HC bc pm cf) as [all Henc].
  set (st4 := mkState _ (rng st) (store st ++ [∅]) (trace st ++ [EvEncoder bc pm cf])).
  destruct (sample_batch_loop_total self m all (length (store st)) (temperature a)
              (length (coords a)) (num_samples a) row0 HC HT
              (λ k Hk, Hslice bc pm cf all k Henc Hk) Hrow0 Hlen0
              (seq 0 (num_samples a)) [] st4)
    as (outs & st' & Hloop & Hlen).
  { intros k Hk%elem_of_seq. lia. }
  { exists ∅. subst st4. simpl. rewrite lookup_app_r by lia. by rewrite Nat.sub_diag. }
  exists outs, st'. split; [|by rewrite Hlen, length_seq].
  unfold sample_batch. cbv zeta.
  erewrite lift_bind_ok by done. cbv beta iota.
  erewrite lift_bind_ok by done. cbv beta iota.
  unfold bind at 1. unfold new_dict. unfold bind at 1. unfold call_encoder.
  rewrite Henc, Hdev. cbn [rng store trace]. exact Hloop.
Qed.

(** ** The further properties on the concrete world *)

Section ToyExtras.
Import Toy.

Lemma init_tokens_error_class_witness :
  init_tokens toy_vocab 2 (Some ["A"; "X"; "C"; "D"]) = Err KeyError ∧
  init_tokens toy_vocab 2 (Some ["A"; "C"; "D"; "X"]) = Err IndexError.
Proof.
  split.
  - apply (init_tokens_error_class toy_vocab 2 ["A"; "X"; "C"; "D"]).
    + vm_compute. right. left.
    + left.
    + exists 1, "X". split_and!; [lia | reflexivity |].
      vm_compute. intros Hx. repeat (apply elem_of_cons in Hx as [Hx|Hx]; [discriminate|]).
      by apply elem_of_nil in Hx.
  - apply (init_tokens_error_class toy_vocab 2 ["A"; "C"; "D"; "X"]).
    + vm_compute. right. left.
    + left.
    + simpl. lia.
    + intros [|[|[|k]]] c Hk Hc; simpl in Hc; [| | |lia]; inversion Hc; subst;
        vm_compute; [do 2 right; left | do 3 right; left | do 4 right; left].
Defined.

Lemma decoder_sees_final_prefix_witness :
  ∃ row' syms evs,
    length row' = 4 ∧
    rmapM (get_tok toy_vocab) (drop 1 row') = Ok syms ∧
    "AAC" = join syms ∧
    trace (sample toy (args 3 1 (Some ["A"; "<mask>"; "C"]) 1 None) st0).2
      = ([] ++ evs)%list ∧
    decoder_prefixes evs = (λ i, [take i row']) <$> seq 1 3.
Proof.
  apply (decoder_sees_final_prefix toy (args 3 1 (Some ["A"; "<mask>"; "C"]) 1 None) st0
           (sample toy (args 3 1 (Some ["A"; "<mask>"; "C"]) 1 None) st0).2 "AAC").
  apply pair_eta_fst. vm_compute. reflexivity.
Defined.

(** The prefixes of that call: the start token, then with "A", then
    with the sampled "A". *)
Example sample_toy_prefixes :
  decoder_prefixes
    (trace (sample toy (args 3 1 (Some ["A"; "<mask>"; "C"]) 1 None) st0).2)
  = [[[0]]; [[0; 2]]; [[0; 2; 2]]]%Z.
Proof. vm_compute. reflexivity. Qed.

Lemma outputs_are_L_symbols_each_witness :
  (run SampleBatch toy (args 2 2 (Some ["<mask>"; "A"]) 1 (Some "cpu")) st0).1
    = Ok ["AA"; "CA"] ∧
  length ["AA"; "CA"] = 2 ∧
  ∀ out, out ∈ ["AA"; "CA"] →
    ∃ syms, out = join syms ∧ length syms = 2 ∧
            Forall (λ y, y ∈ all_toks toy_vocab) syms.
Proof.
  split; [vm_compute; reflexivity|].
  apply (outputs_are_L_symbols_each SampleBatch toy
           (args 2 2 (Some ["<mask>"; "A"]) 1 (Some "cpu")) st0
           (run SampleBatch toy (args 2 2 (Some ["<mask>"; "A"]) 1 (Some "cpu")) st0).2).
  apply pair_eta_fst. vm_compute. reflexivity.
Defined.

Lemma one_draw_per_masked_position_witness :
  ∃ evs,
    trace (run SampleBatch toy (args 3 2 (Some ["A"; "<mask>"]) 1 (Some "cpu")) st0).2
      = ([] ++ evs)%list ∧
    draws (kind_of <$> evs) = 2 * masked_positions (Some ["A"; "<mask>"]) 3.
Proof.
  apply (one_draw_per_masked_position SampleBatch toy
           (args 3 2 (Some ["A"; "<mask>"]) 1 (Some "cpu")) st0
           (run SampleBatch toy (args 3 2 (Some ["A"; "<mask>"]) 1 (Some "cpu")) st0).2
           (match (run SampleBatch toy
                     (args 3 2 (Some ["A"; "<mask>"]) 1 (Some "cpu")) st0).1 with
            | Ok outs => outs
            | Err _ => []
            end)).
  - discriminate.
  - apply pair_eta_fst. vm_compute. reflexivity.
Defined.

Lemma fully_specified_is_returned_verbatim_witness :
  ["AC"; "AC"] = replicate 2 (join ["A"; "C"]) ∧
  (SampleBatch ≠ SampleBatch2 →
   rng (run SampleBatch toy (args 2 2 (Some ["A"; "C"]) 1 (Some "cpu")) st0).2
     = rng st0).
Proof.
  apply (fully_specified_is_returned_verbatim SampleBatch toy
           (args 2 2 (Some ["A"; "C"]) 1 (Some "cpu")) st0
           (run SampleBatch toy (args 2 2 (Some ["A"; "C"]) 1 (Some "cpu")) st0).2
           ["AC"; "AC"] ["A"; "C"]).
  - apply pair_eta_fst. vm_compute. reflexivity.
  - reflexivity.
  - reflexivity.
  - intros Hx. repeat (apply elem_of_cons in Hx as [Hx|Hx]; [discriminate|]).
    by apply elem_of_nil in Hx.
Defined.

Lemma sample_batch2_needs_device_witness :
  ∃ e, (sample_batch2 toy_btv (args 2 2 None 1 None) st0).1 = Err e.
Proof.
  apply (sample_batch2_needs_device toy_btv (args 2 2 None 1 None) st0).
  - reflexivity.
  - simpl. lia.
Defined.

(** There the decode loop has run to its end on the single row: the
    error is the out-of-range row of the conversion. *)
Example sample_batch2_toy_no_device :
  (sample_batch2 toy_btv (args 2 2 None 1 None) st0).1 = Err IndexError ∧
  decoder_calls
    (kind_of <$> trace (sample_batch2 toy_btv (args 2 2 None 1 None) st0).2) = 2.
Proof. vm_compute. split; reflexivity. Qed.

Lemma slice_encoder_out_keys_witness :
  ∃ e, slice_encoder_out toy_all 1 = Ok e ∧
    dom e = dom toy_all ∧
    (∃ x l x', toy_all !! "encoder_out" = Some (EList (x :: l)) ∧
               slice_dim1 x 1 = Ok x' ∧ e !! "encoder_out" = Some (EList [x'])) ∧
    (∃ y l y', toy_all !! "encoder_padding_mask" = Some (EList (y :: l)) ∧
               slice_dim0 y 1 = Ok y' ∧
               e !! "encoder_padding_mask" = Some (EList [y'])) ∧
    ∀ key v, key ≠ "encoder_out" → key ≠ "encoder_padding_mask" →
      toy_all !! key = Some v → e !! key = Some (default v (slice_val v 1)).
Proof.
  eexists. split; [reflexivity|].
  apply (slice_encoder_out_keys toy_all _ 1). reflexivity.
Defined.

Lemma copy_encoder_out_keeps_witness :
  ∃ e, copy_encoder_out toy_all = Ok e ∧
    dom e = dom toy_all ∧
    copy_encoder_out e = Ok e ∧
    (∀ key, key ≠ "encoder_out" → key ≠ "encoder_padding_mask" →
            e !! key = toy_all !! key) ∧
    (∀ x y, toy_all !! "encoder_out" = Some (EList [x]) →
            toy_all !! "encoder_padding_mask" = Some (EList [y]) → e = toy_all).
Proof.
  eexists. split; [reflexivity|].
  apply (copy_encoder_out_keeps toy_all). reflexivity.
Defined.

Lemma sample_batch2_needs_encoder_out_witness :
  ∃ e,
    sample_batch2 toy_bare (args 2 1 None 1 (Some "cpu")) st0 =
      (Err e, mkState _ (rng st0) (store st0 ++ [∅])
                (trace st0 ++ [EvEncoder 1 1 1])) ∧
    ((∅ : EncOut) !! "encoder_out" = None → e = KeyError) ∧
    ((∅ : EncOut) !! "encoder_out" = Some (EList []) → e = IndexError).
Proof.
  apply (sample_batch2_needs_encoder_out toy_bare (args 2 1 None 1 (Some "cpu")) st0
           1 1 1 1%Z [[0; 1; 1]%Z] ∅).
  - reflexivity.
  - vm_compute. reflexivity.
  - reflexivity.
  - left. reflexivity.
Defined.

Lemma empty_coords_give_empty_sequence_witness :
  sample toy (args 0 1 (Some []) 0 None) st0 =
    (Ok "", mkState _ (rng st0) (store st0 ++ [∅]) (trace st0 ++ [EvEncoder 1 1 1])).
Proof.
  apply (empty_coords_give_empty_sequence toy (args 0 1 (Some []) 0 None) st0 1 1 1
           (<["encoder_padding_mask" := EList [1]]> (<["encoder_out" := EList [1]]> ∅))).
  - reflexivity.
  - right. reflexivity.
  - vm_compute. right. left.
  - left.
  - reflexivity.
  - reflexivity.
Defined.

Lemma sample_batch_of_zero_witness :
  sample_batch toy (args 2 0 None 1 None) st0 =
    (Ok [], mkState _ (rng st0) (store st0 ++ [∅]) (trace st0 ++ [EvEncoder 0 0 0])).
Proof.
  apply (sample_batch_of_zero toy (args 2 0 None 1 None) st0 0 0 0 1%Z [[0; 1; 1]%Z]
           (<["encoder_padding_mask" := EList [0]]> (<["encoder_out" := EList [0]]> ∅))).
  - reflexivity.
  - reflexivity.
  - vm_compute. reflexivity.
  - reflexivity.
Defined.

Lemma sample_batch_returns_witness :
  ∃ outs st',
    sample_batch toy (args 2 3 (Some ["A"]) 1 (Some "cpu")) st0 = (Ok outs, st') ∧
    length outs = 3.
Proof.
  apply (sample_batch_returns toy (args 2 3 (Some ["A"]) 1 (Some "cpu")) st0 "cpu").
  - exact toy_contracts.
  - reflexivity.
  - reflexivity.
  - eexists. reflexivity.
  - intros p Hp. inversion Hp; subst p. split; [simpl; lia|].
    intros c Hc. apply list_elem_of_singleton in Hc as ->.
    vm_compute. do 2 right. left.
  - intros bc pm cf all k Hall _. inversion Hall; subst all.
    eexists. reflexivity.
Defined.

Lemma masked_step_shapes_witness :
  t3_d1 (Tensor3 1 1 1 (λ _ _ _, tt)) = 1 ∧ t3_d2 (Tensor3 1 1 1 (λ _ _ _, tt)) = 1.
Proof.
  apply (masked_step_shapes (H:=toy_env) toy_one 1%Z ∅ 0 1 1 [0; 1]%Z
           (mkState toy_env [0] [∅] []) ∅ (Tensor3 1 1 1 (λ _ _ _, tt)) (bump ∅)).
  - reflexivity.
  - reflexivity.
  - reflexivity.
  - exists [[0; 0]]%Z,
      (sample_step toy_one 1%Z ∅ 0 1 1 [[0; 1]]%Z (mkState toy_env [0] [∅] [])).2.
    apply pair_eta_fst. vm_compute. reflexivity.
  - exists [[0; 0]]%Z,
      (batch2_step toy_one 1%Z ∅ 0 1 1 [[0; 1]]%Z (mkState toy_env [0] [∅] [])).2.
    apply pair_eta_fst. vm_compute. reflexivity.
Defined.

End ToyExtras.
